(** * Peer discovery and peer selection of the JavaScript API client

    A shallow embedding of [lib/index.js]: the peer merger, the peer
    version classifier, [findPeers], [fetchPeerConfig], [selectApiPeer],
    [connect] and the version-setting operations of [ApiClient].

    Peer records are JavaScript objects; they are modelled as finite maps
    from field names to primitive values.  Network calls are modelled as
    the nodes of a finite interaction tree which an environment answers. *)

From Stdlib Require Import ZArith List Permutation Ascii String.
From stdpp Require Import gmap strings list fin_maps pretty.

Local Open Scope Z_scope.
Local Open Scope string_scope.
Local Open Scope list_scope.

(** ** JavaScript values *)

Module JS.

(** The primitive values a peer record, a plugin record or a version
    argument holds.  Numbers are the integers (ports, heights, status
    codes, version numbers). *)
Inductive value : Type :=
  | VUndef
  | VNull
  | VBool (b : bool)
  | VNum (n : Z)
  | VStr (s : string).

#[global] Instance value_eq_dec : EqDecision value.
Proof. solve_decision. Defined.

(** [a === b] on primitives. *)
Definition strictEq (a b : value) : bool := bool_decide (a = b).

(** ToBoolean: [undefined], [null], [false], [0] and the empty string are
    falsy. *)
Definition truthy (v : value) : bool :=
  match v with
  | VUndef | VNull => false
  | VBool b => b
  | VNum n => negb (n =? 0)%Z
  | VStr s => negb (bool_decide (s = ""))
  end.

(** ToString, as applied by template literals and by [RegExp.test]; an
    integer prints as its decimal digits. *)
Definition toString (v : value) : string :=
  match v with
  | VUndef => "undefined"
  | VNull => "null"
  | VBool true => "true"
  | VBool false => "false"
  | VNum n => pretty n
  | VStr s => s
  end.

(** An object with primitive fields. *)
Abbreviation obj := (gmap string value).

(** Property read [o.k]: a missing property reads as [undefined]. *)
Definition get (k : string) (o : obj) : value := default VUndef (o !! k).

(** Object spread [{ ...a, ...b }]: the fields of [b] win. *)
Definition spread (a b : obj) : obj := b ∪ a.

(** [Array.prototype.includes] on an array of primitives. *)
Definition includes (l : list value) (v : value) : bool :=
  existsb (strictEq v) l.

End JS.

Import JS.

(** A peer record. *)
Abbreviation peer := (gmap string value).

(** ** The pure helpers *)

(** [mergePeerArrays]: the two [for] loops push onto the array [peers]. *)
Definition mergePeerArrays (oldArray newArray : list peer) : list peer :=
  let peers :=
    fold_left
      (fun (peers : list peer) (oldPeer : peer) =>
         let newPeer :=
           default (∅ : peer)
             (find (fun p : peer => strictEq (get "ip" p) (get "ip" oldPeer))
                   newArray) in
         peers ++ [spread oldPeer newPeer])
      oldArray [] in
  fold_left
    (fun (peers : list peer) (newPeer : peer) =>
       match find (fun p : peer => strictEq (get "ip" p) (get "ip" newPeer))
                  peers with
       | Some _ => peers
       | None => peers ++ [newPeer]
       end)
    newArray peers.

(** The regular expression [/^1\./] applied to a string. *)
Definition matchesV1 (s : string) : bool :=
  String.prefix "1." s.

(** [getPeerVersion]. *)
Definition getPeerVersion (p : peer) : Z :=
  if negb (truthy (get "version" p)) || matchesV1 (toString (get "version" p))
  then 1 else 2.

(** ** The HTTP transport and the client object *)

(** Modelled from the spec: the class [HttpClient] of [lib/http.js], of
    which the client only uses the constructor [new HttpClient(host,
    version)], the setters [setVersion] and [setTimeout] and the writable
    property [host].  It is a record of the target host, the protocol
    version and the request timeout. *)
Record HttpClient : Type := mkHttp {
  http_host : string;
  http_version : value;
  http_timeout : option Z
}.

Definition newHttpClient (host : string) (version : value) : HttpClient :=
  mkHttp host version None.

Definition http_setVersion (h : HttpClient) (version : value) : HttpClient :=
  mkHttp (http_host h) version (http_timeout h).

Definition http_setTimeout (h : HttpClient) (ms : Z) : HttpClient :=
  mkHttp (http_host h) (http_version h) (Some ms).

Definition http_setHost (h : HttpClient) (host : string) : HttpClient :=
  mkHttp host (http_version h) (http_timeout h).

(** An instance of [ApiClient]: the fields [this.http] and [this.version]. *)
Record ApiClient : Type := mkClient {
  client_http : HttpClient;
  client_version : value
}.

(** The errors that leave the module.  The three [new Error(..)] of the
    source are told apart by their message; [TypeError] is raised by the
    runtime. *)
Inductive error : Type :=
  | UnsupportedNetworkError (network : string)
  | InvalidVersionError
  | NoApiPeerFoundError
  | TypeError.

Inductive result (A : Type) : Type :=
  | Ok (a : A)
  | Err (e : error).
Arguments Ok {A} a.
Arguments Err {A} e.

(** [setConnection (host)]. *)
Definition setConnection (this : ApiClient) (host : string) : ApiClient :=
  mkClient (newHttpClient host (client_version this)) (client_version this).

(** [setVersion (version)]. *)
Definition setVersion (this : ApiClient) (version : value) : result ApiClient :=
  if negb (truthy version) then Err InvalidVersionError
  else Ok (mkClient (http_setVersion (client_http this) version) version).

(** [a || b] on primitives. *)
Definition orElse (a b : value) : value := if truthy a then a else b.

(** [constructor (host, version)]: the fields of the fresh object are
    [undefined] until the two setters have run. *)
Definition constructor (host : string) (version : value) : result ApiClient :=
  let this := mkClient (newHttpClient "" VUndef) VUndef in
  let this := setConnection this host in
  setVersion this (orElse version (VNum 1)).

(** ** Network interaction *)

(** The body [data] of the response to [client.resource('peers').all()]:
    version 1 answers [{ success, peers }], version 2 answers [{ data }];
    a field that is not there is [None]. *)
Record peersBody : Type := mkBody {
  body_success : value;
  body_peers : option (list peer);
  body_data : option (list peer)
}.

(** What awaiting the peer list gives: the call throws or rejects, or it
    resolves to a response with the given body.  A lookup of the resource
    that throws before anything is sent is a rejection too. *)
Inductive peersReply : Type :=
  | PeersRejected
  | PeersResolved (data : peersBody).

(** A configuration document: [config.plugins] maps a plugin name to its
    record. *)
Record config : Type := mkConfig {
  plugins : option (gmap string obj)
}.

(** The payload [data.data] of a configuration response. *)
Inductive payload : Type :=
  | PUndef
  | PNull
  | PConfig (c : config).

(** What awaiting [sendRequest('get', endpoint)] gives: it throws or
    rejects, or it resolves with [data] falsy ([None]) or with [data] an
    object whose field [data] is the payload. *)
Inductive getReply : Type :=
  | GetRejected
  | GetResolved (data : option payload).

(** A computation that awaits network calls: a finite tree whose nodes
    are the calls and whose branches are indexed by the replies. *)
Inductive prog (A : Type) : Type :=
  | Ret (a : A)
  | Throw (e : error)
  | PeersAll (client : ApiClient) (k : peersReply -> prog A)
  | SendRequest (http : HttpClient) (method : string)
                (endpoint : option string) (k : getReply -> prog A).
Arguments Ret {A} a.
Arguments Throw {A} e.
Arguments PeersAll {A} client k.
Arguments SendRequest {A} http method endpoint k.

Fixpoint bind {A B : Type} (m : prog A) (f : A -> prog B) : prog B :=
  match m with
  | Ret a => f a
  | Throw e => Throw e
  | PeersAll c k => PeersAll c (fun r => bind (k r) f)
  | SendRequest h m e k => SendRequest h m e (fun r => bind (k r) f)
  end.

Notation "'await' x <- m ; k" := (bind m (fun x => k))
  (at level 10, x name, m at level 100, k at level 200).

(** One call and its reply, as the network saw them. *)
Inductive entry : Type :=
  | PeersCall (client : ApiClient) (reply : peersReply)
  | GetCall (http : HttpClient) (method : string) (endpoint : option string)
            (reply : getReply).

(** The network: the reply to a call may depend on all earlier calls. *)
Record env : Type := mkEnv {
  onPeers : list entry -> ApiClient -> peersReply;
  onGet : list entry -> HttpClient -> string -> option string -> getReply
}.

(** Running a computation against a network, from the history [h] of the
    calls made so far: the outcome and the extended history. *)
Fixpoint run {A : Type} (w : env) (h : list entry) (p : prog A)
  : result A * list entry :=
  match p with
  | Ret a => (Ok a, h)
  | Throw e => (Err e, h)
  | PeersAll c k =>
      let r := onPeers w h c in run w (h ++ [PeersCall c r]) (k r)
  | SendRequest c m e k =>
      let r := onGet w h c m e in run w (h ++ [GetCall c m e r]) (k r)
  end.

(** The host a call was addressed to. *)
Definition entry_host (e : entry) : string :=
  match e with
  | PeersCall c _ => http_host (client_http c)
  | GetCall c _ _ _ => http_host c
  end.

(** ** Peer discovery *)

(** [Array.prototype.indexOf] on an array of primitives: the index of the
    first element strictly equal to [v], or [-1]. *)
Fixpoint indexOf (l : list value) (v : value) : Z :=
  match l with
  | [] => -1
  | x :: l' =>
      if strictEq x v then 0
      else let i := indexOf l' v in if (i =? -1)%Z then -1 else i + 1
  end.

Definition selfIps : list value :=
  [VStr "127.0.0.1"; VStr "::ffff:127.0.0.1"; VStr "::1"].

Definition versionStatus : list value := [VStr "OK"; VNum 200].

(** The callback given to [responsePeers.filter]. *)
Definition keepPeer (version : value) (p : peer) : bool :=
  if strictEq version (VNum 1) && negb (includes versionStatus (get "status" p))
  then false
  else (indexOf selfIps (get "ip" p) =? -1)%Z
       && strictEq (VNum (getPeerVersion p)) version.

(** The peer list read off a reply, before filtering; [None] when the
    [try] block is left by an exception (the call rejects, or
    [data.data.length] is read while [data.data] is not there). *)
Definition responsePeers (version : value) (reply : peersReply)
  : option (list peer) :=
  match reply with
  | PeersRejected => None
  | PeersResolved data =>
      match strictEq version (VNum 1) && truthy (body_success data),
            body_peers data with
      | true, Some ps => Some ps
      | _, _ =>
          if strictEq version (VNum 2) then
            match body_data data with
            | None => None
            | Some d => if (0 <? Z.of_nat (length d))%Z then Some d else Some []
            end
          else Some []
      end
  end.

(** The URL [`${scheme}${peer.ip}:${peer.port}`] of a candidate. *)
Definition peerUrl (p : peer) : string :=
  let scheme := if truthy (get "isHttps" p) then "https://" else "http://" in
  scheme +:+ toString (get "ip" p) +:+ ":" +:+ toString (get "port" p).

(** The [for] loop of [findPeers], from the state [(checks, peers)] on;
    [client] is the scratch client, retargeted before every call. *)
Fixpoint probeLoop (version : value) (client : ApiClient)
    (networkPeers : list peer) (checks : Z) (peers : list peer)
  : prog (list peer) :=
  match networkPeers with
  | [] => Ret peers
  | p :: rest =>
      let client :=
        mkClient (http_setHost (client_http client) (peerUrl p))
                 (client_version client) in
      PeersAll client (fun reply =>
        match responsePeers version reply with
        | Some (r :: rs) =>
            let responsePeers := List.filter (keepPeer version) (r :: rs) in
            let peers := mergePeerArrays peers responsePeers in
            let checks := (checks + 1)%Z in
            if (checks >=? 2)%Z then Ret peers
            else probeLoop version client rest checks peers
        | _ => probeLoop version client rest checks peers
        end)
  end.

(** The default parameter [version = 1]: it replaces [undefined] only. *)
Definition defaultTo1 (version : value) : value :=
  match version with
  | VUndef => VNum 1
  | v => v
  end.

(** The argument [peersOverride]: left out, [null], or an array. *)
Inductive override : Type :=
  | OvUndefined
  | OvNull
  | OvPeers (l : list peer).

(** [cloneDeep] of lodash: the copy is equal to the original, field by
    field. *)
Definition cloneDeep (l : list peer) : list peer := l.

Section Discovery.

(** The seed table [lib/peers], the comparator module
    [lib/utils/sort-peers] and lodash's [shuffle], which returns a new
    array and leaves its argument as it is. *)
Variable initialPeers : gmap string (list peer).
Variable sortPeers : list peer -> list peer.
Variable shuffle : list peer -> list peer.

(** The candidate list [peersOverride || initialPeers[network]];
    [None] is [undefined]. *)
Definition candidates (network : string) (peersOverride : override)
  : option (list peer) :=
  match peersOverride with
  | OvPeers l => Some l
  | OvUndefined | OvNull => initialPeers !! network
  end.

(** [findPeers (network, version = 1, peersOverride)]. *)
Definition findPeers (network : string) (version : value)
    (peersOverride : override) : prog (list peer) :=
  let version := defaultTo1 version in
  match peersOverride, initialPeers !! network with
  | OvUndefined, None => Throw (UnsupportedNetworkError network)
  | _, _ =>
      let networkPeers := candidates network peersOverride in
      let _ := shuffle (default [] networkPeers) in
      match constructor "http://" version with
      | Err e => Throw e
      | Ok client =>
          let client :=
            mkClient (http_setTimeout (client_http client) 5000)
                     (client_version client) in
          match networkPeers with
          | None => Throw TypeError
          | Some networkPeers =>
              await peers <- probeLoop version client networkPeers 0 [];
              Ret (cloneDeep (sortPeers
                     match peers with
                     | [] => networkPeers
                     | _ :: _ => peers
                     end))
          end
      end
  end.

End Discovery.

(** ** Locating a peer that serves the API *)

(** The character class [\d]. *)
Definition isDigit (c : ascii) : bool :=
  ((48 <=? N_of_ascii c) && (N_of_ascii c <=? 57))%N.

(** What is left of a string once its leading digits are consumed. *)
Fixpoint dropDigits (s : string) : string :=
  match s with
  | String c r => if isDigit c then dropDigits r else s
  | EmptyString => EmptyString
  end.

Definition startsWithDigit (s : string) : bool :=
  match s with
  | String c _ => isDigit c
  | EmptyString => false
  end.

(** [host.replace(/:\d+/, ':4040')]: the leftmost colon that is followed
    by a digit is rewritten together with all the digits after it. *)
Fixpoint replacePort (host : string) : string :=
  match host with
  | EmptyString => EmptyString
  | String c r =>
      if bool_decide (c = ":"%char) && startsWithDigit r
      then ":4040" +:+ dropDigits r
      else String c (replacePort r)
  end.

(** The template [`http://${peer.ip}:${peer.port}`] of [selectApiPeer]
    and of [connect]. *)
Definition httpUrl (p : peer) : string :=
  "http://" +:+ toString (get "ip" p) +:+ ":" +:+ toString (get "port" p).

(** The table [attempts] of [fetchPeerConfig]. *)
Definition attempts (host : string) : list (string * option string) :=
  let walletApiHost := replacePort host in
  [ (host, Some "/config");
    (walletApiHost, Some "/config");
    (walletApiHost, None) ].

(** The [for] loop of [fetchPeerConfig] over the attempts still to make. *)
Fixpoint tryAttempts (l : list (string * option string)) : prog payload :=
  match l with
  | [] => Ret PNull
  | attempt :: rest =>
      let httpClient := newHttpClient (fst attempt) (VNum 2) in
      SendRequest httpClient "get" (snd attempt) (fun reply =>
        match reply with
        | GetResolved (Some data) => Ret data
        | GetResolved None | GetRejected => tryAttempts rest
        end)
  end.

(** [fetchPeerConfig (host)]. *)
Definition fetchPeerConfig (host : string) : prog payload :=
  tryAttempts (attempts host).

(** The condition of [selectApiPeer] on a fetched configuration: the
    record of the plugin [@arkecosystem/core-api] when [config],
    [config.plugins], the record and its field [enabled] are all truthy. *)
Definition coreApi (c : payload) : option obj :=
  match c with
  | PConfig c =>
      match plugins c with
      | Some ps =>
          match ps !! "@arkecosystem/core-api" with
          | Some plugin => if truthy (get "enabled" plugin) then Some plugin else None
          | None => None
          end
      | None => None
      end
  | PUndef | PNull => None
  end.

(** [selectApiPeer (peers)]; [None] is [null]. *)
Fixpoint selectApiPeer (peers : list peer) : prog (option peer) :=
  match peers with
  | [] => Ret None
  | p :: rest =>
      let host := httpUrl p in
      await config <- fetchPeerConfig host;
      match coreApi config with
      | Some plugin => Ret (Some (<["port" := get "port" plugin]> p))
      | None => selectApiPeer rest
      end
  end.

(** [new ApiClient(host, version)] inside a computation. *)
Definition newApiClient (host : string) (version : value) : prog ApiClient :=
  match constructor host version with
  | Ok c => Ret c
  | Err e => Throw e
  end.

Section Connect.

Variable initialPeers : gmap string (list peer).
Variable sortPeers : list peer -> list peer.
Variable shuffle : list peer -> list peer.

(** [connect (network, version, peersOverride)]: reading [peer.ip] of
    [peers[0]] on an empty array raises a [TypeError]. *)
Definition connect (network : string) (version : value)
    (peersOverride : override) : prog ApiClient :=
  await peers <- findPeers initialPeers sortPeers shuffle network version
                   peersOverride;
  await p <-
    (if strictEq version (VNum 1) then
       match peers with
       | [] => Throw TypeError
       | p :: _ => Ret p
       end
     else
       await p <- selectApiPeer peers;
       match p with
       | None => Throw NoApiPeerFoundError
       | Some p => Ret p
       end);
  newApiClient (httpUrl p) version.

End Connect.

(** ** The comparator as a function that may throw *)

Section Throwing.

(** The comparator [lib/utils/sort-peers] lies outside these sources.
    Above it is taken as a function that returns; here it is one that
    may throw as well, as it does where its argument is not what it
    expects.  [findPeersT] and [connectT] are [findPeers] and [connect]
    with that comparator: an exception of [sortPeers] at the last line of
    [findPeers] leaves [findPeers], and so [connect]. *)
Variable initialPeers : gmap string (list peer).
Variable sortPeers : list peer -> result (list peer).
Variable shuffle : list peer -> list peer.

Definition findPeersT (network : string) (version : value)
    (peersOverride : override) : prog (list peer) :=
  let version := defaultTo1 version in
  match peersOverride, initialPeers !! network with
  | OvUndefined, None => Throw (UnsupportedNetworkError network)
  | _, _ =>
      let networkPeers := candidates initialPeers network peersOverride in
      let _ := shuffle (default [] networkPeers) in
      match constructor "http://" version with
      | Err e => Throw e
      | Ok client =>
          let client :=
            mkClient (http_setTimeout (client_http client) 5000)
                     (client_version client) in
          match networkPeers with
          | None => Throw TypeError
          | Some networkPeers =>
              await peers <- probeLoop version client networkPeers 0 [];
              match sortPeers
                      match peers with
                      | [] => networkPeers
                      | _ :: _ => peers
                      end with
              | Ok sorted => Ret (cloneDeep sorted)
              | Err e => Throw e
              end
          end
      end
  end.

Definition connectT (network : string) (version : value)
    (peersOverride : override) : prog ApiClient :=
  await peers <- findPeersT network version peersOverride;
  await p <-
    (if strictEq version (VNum 1) then
       match peers with
       | [] => Throw TypeError
       | p :: _ => Ret p
       end
     else
       await p <- selectApiPeer peers;
       match p with
       | None => Throw NoApiPeerFoundError
       | Some p => Ret p
       end);
  newApiClient (httpUrl p) version.

End Throwing.

(** * Verification *)

(** Building a peer record from its fields. *)
Definition mkPeer (l : list (string * value)) : peer := list_to_map l.

(** ** The peer merger *)

Module Merger.

(** The merge as the specification words it.  [overlay incoming b] is the
    record of [base] overlaid with the first record of [incoming] that has
    its [ip]; [freshOnes seen incoming] keeps, in order, the records of
    [incoming] whose [ip] is not among the [ip]s placed so far. *)
Definition firstSameIp (incoming : list peer) (b : peer) : option peer :=
  find (fun n : peer => strictEq (get "ip" n) (get "ip" b)) incoming.

Definition overlay (incoming : list peer) (b : peer) : peer :=
  match firstSameIp incoming b with
  | Some n => n ∪ b
  | None => b
  end.

Fixpoint freshOnes (seen : list value) (incoming : list peer) : list peer :=
  match incoming with
  | [] => []
  | n :: rest =>
      if bool_decide (get "ip" n ∈ seen) then freshOnes seen rest
      else n :: freshOnes (get "ip" n :: seen) rest
  end.

Definition merge_spec (base incoming : list peer) : list peer :=
  let placed := map (overlay incoming) base in
  placed ++ freshOnes (map (get "ip") placed) incoming.

Lemma strictEq_true (a b : value) : strictEq a b = true <-> a = b.
Proof. unfold strictEq. apply bool_decide_eq_true. Qed.

Lemma push_loop_is_map {A B : Type} (f : A -> B) (l : list A) (acc : list B) :
  fold_left (fun acc x => acc ++ [f x]) l acc = acc ++ map f l.
Proof.
  revert acc. induction l as [|x l IH]; intros acc; simpl.
  - by rewrite app_nil_r.
  - rewrite IH. by rewrite <- app_assoc.
Qed.

Lemma find_ip_None (placed : list peer) (v : value) :
  find (fun p : peer => strictEq (get "ip" p) v) placed = None
  <-> v ∉ map (get "ip") placed.
Proof.
  induction placed as [|p placed IH]; simpl.
  - split; [intros _ H; inversion H | done].
  - destruct (strictEq (get "ip" p) v) eqn:E.
    + apply strictEq_true in E. split; [done |].
      intros H. exfalso. apply H. rewrite E. constructor.
    + rewrite IH. split.
      * intros H H'. apply elem_of_cons in H' as [->|H']; [|done].
        assert (strictEq (get "ip" p) (get "ip" p) = true) by by apply strictEq_true.
        congruence.
      * intros H H'. apply H. by constructor.
Qed.

Lemma freshOnes_ext (seen seen' : list value) (incoming : list peer) :
  (forall v, v ∈ seen <-> v ∈ seen') ->
  freshOnes seen incoming = freshOnes seen' incoming.
Proof.
  revert seen seen'. induction incoming as [|n rest IH]; intros seen seen' H; simpl.
  - done.
  - rewrite (bool_decide_ext _ _ (H (get "ip" n))).
    case_bool_decide.
    + by apply IH.
    + f_equal. apply IH. intros v. rewrite !elem_of_cons. by rewrite H.
Qed.

Lemma append_loop_is_freshOnes (incoming placed : list peer) :
  fold_left
    (fun (peers : list peer) (newPeer : peer) =>
       match find (fun p : peer => strictEq (get "ip" p) (get "ip" newPeer))
                  peers with
       | Some _ => peers
       | None => peers ++ [newPeer]
       end)
    incoming placed
  = placed ++ freshOnes (map (get "ip") placed) incoming.
Proof.
  revert placed. induction incoming as [|n rest IH]; intros placed; simpl.
  - by rewrite app_nil_r.
  - destruct (find _ placed) as [q|] eqn:E.
    + rewrite IH. rewrite bool_decide_true; [done |].
      destruct (decide (get "ip" n ∈ map (get "ip") placed)) as [|Hn]; [done |].
      apply find_ip_None in Hn. congruence.
    + rewrite IH. apply find_ip_None in E. rewrite bool_decide_false by done.
      rewrite <- app_assoc. simpl. do 2 f_equal.
      apply freshOnes_ext. intros v.
      rewrite map_app. simpl. rewrite elem_of_app, !elem_of_cons, elem_of_nil.
      tauto.
Qed.

Lemma spread_overlay (incoming : list peer) (b : peer) :
  spread b (default (∅ : peer) (firstSameIp incoming b)) = overlay incoming b.
Proof.
  unfold spread, overlay. destruct (firstSameIp incoming b); simpl; [done |].
  by rewrite (left_id_L ∅ (∪)).
Qed.

Lemma merge_refines (base incoming : list peer) :
  mergePeerArrays base incoming = merge_spec base incoming.
Proof.
  unfold mergePeerArrays, merge_spec.
  rewrite (push_loop_is_map
             (fun oldPeer : peer =>
                spread oldPeer
                  (default (∅ : peer)
                     (find (fun p : peer => strictEq (get "ip" p) (get "ip" oldPeer))
                        incoming)))). simpl.
  rewrite append_loop_is_freshOnes. f_equal.
  - apply map_ext. intros b. apply spread_overlay.
  - f_equal. f_equal. apply map_ext. intros b. apply spread_overlay.
Qed.

Lemma merge_nil_r (base : list peer) : mergePeerArrays base [] = base.
Proof.
  rewrite merge_refines. unfold merge_spec. simpl. rewrite app_nil_r.
  induction base as [|b base IH]; simpl; [done |]. by rewrite IH.
Qed.

Lemma merge_nil_l (incoming : list peer) :
  mergePeerArrays [] incoming = freshOnes [] incoming.
Proof. by rewrite merge_refines. Qed.

Lemma merge_length (base incoming : list peer) :
  (length base <= length (mergePeerArrays base incoming))%nat.
Proof.
  rewrite merge_refines. unfold merge_spec.
  rewrite length_app, length_map. lia.
Qed.

Lemma merge_nonempty (base incoming : list peer) :
  mergePeerArrays base incoming = [] <-> base = [] /\ incoming = [].
Proof.
  split.
  - intros H. assert (base = []) as ->.
    { pose proof (merge_length base incoming) as L. rewrite H in L.
      destruct base; [done | simpl in L; lia]. }
    split; [done |]. rewrite merge_nil_l in H.
    destruct incoming as [|n rest]; [done |]. cbn [freshOnes] in H.
    case_bool_decide as H'; [by apply elem_of_nil in H' | done].
  - intros [-> ->]. done.
Qed.

(** C3. [mergePeerArrays base incoming] is the list of the records of
    [base], in order, each overlaid field by field with the first record
    of [incoming] that has the same [ip] (a field of the incoming record
    wins, a field it lacks is kept from the base record, and a record
    without a match is unchanged), followed by the records of [incoming]
    whose [ip] is not among the records placed before them, in the order
    of [incoming].  The worked example of the specification evaluates as
    stated, and merging with the empty list gives back [base]. *)
Theorem mergePeerArrays_spec :
  (forall base incoming : list peer,
     mergePeerArrays base incoming = merge_spec base incoming)
  /\ (forall (incoming : list peer) (b : peer) (k : string),
        overlay incoming b !! k =
        match firstSameIp incoming b with
        | Some n => match n !! k with Some v => Some v | None => b !! k end
        | None => b !! k
        end)
  /\ mergePeerArrays
       [mkPeer [("ip", VStr "A"); ("port", VNum 1)];
        mkPeer [("ip", VStr "B"); ("port", VNum 2)]]
       [mkPeer [("ip", VStr "B"); ("port", VNum 22); ("version", VStr "2")];
        mkPeer [("ip", VStr "C"); ("port", VNum 3)]]
     = [mkPeer [("ip", VStr "A"); ("port", VNum 1)];
        mkPeer [("ip", VStr "B"); ("port", VNum 22); ("version", VStr "2")];
        mkPeer [("ip", VStr "C"); ("port", VNum 3)]]
  /\ (forall base : list peer, mergePeerArrays base [] = base).
Proof.
  split; [exact merge_refines |].
  split.
  { intros incoming b k. unfold overlay.
    destruct (firstSameIp incoming b) as [n|]; [|done].
    rewrite lookup_union. destruct (n !! k), (b !! k); done. }
  split; [vm_compute; reflexivity |].
  exact merge_nil_r.
Qed.

End Merger.

(** ** Running computations *)

Lemma run_bind {A B : Type} (w : env) (m : prog A) (f : A -> prog B) :
  forall h,
    run w h (bind m f)
    = match run w h m with
      | (Ok a, h') => run w h' (f a)
      | (Err e, h') => (Err e, h')
      end.
Proof.
  induction m as [a|e|c k IH|c mt ep k IH]; intros h; simpl; auto.
Qed.

Lemma constructor_ok (host : string) (version : value) :
  constructor host version
  = Ok (mkClient (newHttpClient host (orElse version (VNum 1)))
                 (orElse version (VNum 1))).
Proof.
  unfold constructor, setVersion, orElse. destruct (truthy version) eqn:E.
  - by rewrite E.
  - done.
Qed.

(** ** The prober *)

Module Prober.

(** What one entry of the history contributed to the discovery run for
    [version]: the peer list the reply was read as ([accepted]), whether
    it was counted as a successful check ([counts]), and the peers kept
    from it ([kept]). *)
Definition accepted (version : value) (e : entry) : list peer :=
  match e with
  | PeersCall _ reply => default [] (responsePeers version reply)
  | GetCall _ _ _ _ => []
  end.

Definition counts (version : value) (e : entry) : bool :=
  match accepted version e with
  | [] => false
  | _ :: _ => true
  end.

Definition kept (version : value) (e : entry) : list peer :=
  List.filter (keepPeer version) (accepted version e).

Definition absorb (version : value) (acc : list peer) (e : entry) : list peer :=
  if counts version e then mergePeerArrays acc (kept version e) else acc.

Definition accumulate (version : value) (t : list entry) (acc : list peer)
  : list peer :=
  fold_left (absorb version) t acc.

Definition nchecks (version : value) (t : list entry) : Z :=
  Z.of_nat (length (List.filter (counts version) t)).

(** The shape of the calls a probe loop makes over [cands], entered with
    [checks] successful checks: the calls go to the candidates in the
    order of the list; before each call fewer than two checks had been
    counted; and the loop ends on the last candidate or on the second
    check. *)
Record probe_trace (version : value) (cands : list peer) (checks : Z)
    (t : list entry) : Prop := {
  trace_hosts : map entry_host t = take (length t) (map peerUrl cands);
  trace_bound : (length t <= length cands)%nat;
  trace_running :
    forall t1 e t2, t = t1 ++ e :: t2 -> checks + nchecks version t1 < 2;
  trace_stop :
    length t = length cands \/ checks + nchecks version t = 2
}.

Lemma nchecks_cons version e t :
  nchecks version (e :: t)
  = (if counts version e then 1 else 0) + nchecks version t.
Proof.
  unfold nchecks. simpl. destruct (counts version e); simpl; lia.
Qed.

Lemma nchecks_nonneg version t : 0 <= nchecks version t.
Proof. unfold nchecks. lia. Qed.

Lemma probe_trace_cons version p rest checks e t :
  entry_host e = peerUrl p ->
  checks < 2 ->
  probe_trace version rest (checks + (if counts version e then 1 else 0)) t ->
  probe_trace version (p :: rest) checks (e :: t).
Proof.
  intros Hh Hc [H1 H2 H3 H4]. split.
  - simpl. by rewrite Hh, H1.
  - simpl. lia.
  - intros t1 e' t2 Heq. destruct t1 as [|e1 t1]; simpl in Heq.
    + unfold nchecks. simpl. lia.
    + injection Heq as -> ->. rewrite nchecks_cons.
      specialize (H3 t1 e' t2 eq_refl). lia.
  - rewrite nchecks_cons. simpl. destruct H4 as [H4|H4]; [left | right]; lia.
Qed.

Lemma probe_trace_quorum version p rest checks e :
  entry_host e = peerUrl p ->
  checks < 2 -> counts version e = true -> checks + 1 >= 2 ->
  probe_trace version (p :: rest) checks [e].
Proof.
  intros Hh Hc He Hq. split.
  - simpl. rewrite Hh. by rewrite take_0.
  - simpl. lia.
  - intros t1 e' t2 Heq. destruct t1 as [|e1 t1]; simpl in Heq.
    + unfold nchecks. simpl. lia.
    + injection Heq as _ Heq. by destruct t1.
  - right. rewrite nchecks_cons, He. unfold nchecks. simpl. lia.
Qed.

(** The reply of an entry is one the network [w] gave to that call. *)
Definition answered (w : env) (e : entry) : Prop :=
  match e with
  | PeersCall c r => exists h, r = onPeers w h c
  | GetCall c m ep r => exists h, r = onGet w h c m ep
  end.

Lemma accumulate_cons version e t acc :
  accumulate version (e :: t) acc = accumulate version t (absorb version acc e).
Proof. reflexivity. Qed.

Section Loop.

Variable w : env.
Variable version : value.

(** The probe loop always returns; its result is the fold of the merger
    over what the calls contributed, and its calls have the shape
    [probe_trace]. *)
Lemma probeLoop_run (cands : list peer) :
  forall (client : ApiClient) (checks : Z) (peers : list peer) (h : list entry),
    checks < 2 ->
    exists t,
      run w h (probeLoop version client cands checks peers)
      = (Ok (accumulate version t peers), h ++ t)
      /\ probe_trace version cands checks t
      /\ Forall (answered w) t.
Proof.
  induction cands as [|p rest IH]; intros client checks peers h Hc.
  - exists []. split; [simpl; by rewrite app_nil_r |]. split; [|by constructor].
    split; simpl; auto. intros t1 e t2 Heq. by destruct t1.
  - cbn [probeLoop run]. cbv zeta.
    set (client' := mkClient (http_setHost (client_http client) (peerUrl p))
                             (client_version client)).
    set (reply := onPeers w h client').
    set (e := PeersCall client' reply).
    assert (He : entry_host e = peerUrl p) by done.
    assert (Ha : answered w e) by (by exists h).
    destruct (responsePeers version reply) as [[|r rs]|] eqn:Hr.
    + assert (Hcnt : counts version e = false).
      { unfold counts, accepted. simpl. by rewrite Hr. }
      destruct (IH client' checks peers (h ++ [e]) Hc) as (t & Hrun & Ht & Hans).
      exists (e :: t). split.
      * rewrite Hrun, <- app_assoc, accumulate_cons. unfold absorb.
        by rewrite Hcnt.
      * split; [|by constructor].
        apply probe_trace_cons; [done | done |]. rewrite Hcnt.
        by replace (checks + 0) with checks by lia.
    + assert (Hcnt : counts version e = true).
      { unfold counts, accepted. simpl. by rewrite Hr. }
      assert (Hk : kept version e = List.filter (keepPeer version) (r :: rs)).
      { unfold kept, accepted. simpl. by rewrite Hr. }
      destruct (checks + 1 >=? 2) eqn:Hq.
      * exists [e]. split.
        -- cbn [run]. unfold accumulate. cbn [fold_left]. unfold absorb.
           by rewrite Hcnt, Hk.
        -- split; [|by repeat constructor].
           apply probe_trace_quorum; [done | done | done | lia].
      * assert (Hc' : checks + 1 < 2) by lia.
        destruct (IH client' (checks + 1)
                    (mergePeerArrays peers (List.filter (keepPeer version) (r :: rs)))
                    (h ++ [e]) Hc') as (t & Hrun & Ht & Hans).
        exists (e :: t). split.
        -- rewrite Hrun, <- app_assoc, accumulate_cons. unfold absorb.
           by rewrite Hcnt, Hk.
        -- split; [|by constructor].
           apply probe_trace_cons; [done | done |]. by rewrite Hcnt.
    + assert (Hcnt : counts version e = false).
      { unfold counts, accepted. simpl. by rewrite Hr. }
      destruct (IH client' checks peers (h ++ [e]) Hc) as (t & Hrun & Ht & Hans).
      exists (e :: t). split.
      * rewrite Hrun, <- app_assoc, accumulate_cons. unfold absorb.
        by rewrite Hcnt.
      * split; [|by constructor].
        apply probe_trace_cons; [done | done |]. rewrite Hcnt.
        by replace (checks + 0) with checks by lia.
Qed.

End Loop.

Lemma absorb_nil version acc e :
  absorb version acc e = [] <-> acc = [] /\ kept version e = [].
Proof.
  unfold absorb, kept, counts. destruct (accepted version e) as [|r rs] eqn:E.
  - simpl. tauto.
  - apply Merger.merge_nonempty.
Qed.

Lemma accumulate_nil version t :
  forall acc,
    accumulate version t acc = []
    <-> acc = [] /\ Forall (fun e => kept version e = []) t.
Proof.
  induction t as [|e t IH]; intros acc.
  - simpl. split; [intros ->; by split | by intros [-> _]].
  - rewrite accumulate_cons, IH, absorb_nil, Forall_cons. tauto.
Qed.

Section FindPeers.

Variable initialPeers : gmap string (list peer).
Variable sortPeers : list peer -> list peer.
Variable shuffle : list peer -> list peer.

(** Whenever a candidate list is there, [findPeers] returns: the sorted
    copy of what the probes accumulated, or of the candidates when they
    accumulated nothing. *)
Lemma findPeers_run (w : env) (h : list entry) (network : string)
    (version : value) (peersOverride : override) (cands : list peer) :
  candidates initialPeers network peersOverride = Some cands ->
  exists t,
    run w h (findPeers initialPeers sortPeers shuffle network version peersOverride)
    = (Ok (cloneDeep (sortPeers
             match accumulate (defaultTo1 version) t [] with
             | [] => cands
             | _ :: _ => accumulate (defaultTo1 version) t []
             end)), h ++ t)
    /\ probe_trace (defaultTo1 version) cands 0 t
    /\ Forall (answered w) t.
Proof.
  intros Hc.
  assert (Hbody :
    findPeers initialPeers sortPeers shuffle network version peersOverride
    = bind (probeLoop (defaultTo1 version)
              (mkClient (http_setTimeout
                           (newHttpClient "http://"
                              (orElse (defaultTo1 version) (VNum 1))) 5000)
                        (orElse (defaultTo1 version) (VNum 1)))
              cands 0 [])
           (fun peers =>
              Ret (cloneDeep (sortPeers
                     match peers with [] => cands | _ :: _ => peers end)))).
  { unfold findPeers. rewrite constructor_ok, Hc.
    destruct peersOverride; simpl in Hc; try rewrite Hc; reflexivity. }
  rewrite Hbody, run_bind.
  destruct (probeLoop_run w (defaultTo1 version) cands
              (mkClient (http_setTimeout
                           (newHttpClient "http://"
                              (orElse (defaultTo1 version) (VNum 1))) 5000)
                        (orElse (defaultTo1 version) (VNum 1)))
              0 [] h) as (t & Hrun & Ht & Hans); [lia |].
  exists t. rewrite Hrun. simpl. auto.
Qed.

End FindPeers.

(** *** Sample networks and candidates *)

Definition seedA : peer := mkPeer [("ip", VStr "10.0.0.1"); ("port", VNum 4001)].
Definition seedB : peer := mkPeer [("ip", VStr "10.0.0.2"); ("port", VNum 4001)].
Definition seedC : peer := mkPeer [("ip", VStr "10.0.0.3"); ("port", VNum 4001)].

(** A network on which every call is rejected. *)
Definition deadNetwork : env :=
  mkEnv (fun _ _ => PeersRejected) (fun _ _ _ _ => GetRejected).

(** A network on which every peer answers, under version 1, with a list
    that holds nothing but its own loopback address. *)
Definition loopbackReply : peersReply :=
  PeersResolved
    (mkBody (VBool true)
            (Some [mkPeer [("ip", VStr "127.0.0.1"); ("status", VStr "OK")]])
            None).

Definition loopbackNetwork : env :=
  mkEnv (fun _ _ => loopbackReply) (fun _ _ _ _ => GetRejected).

(** The number of calls of a history whose filtered peer list is not
    empty. *)
Definition nkept (version : value) (t : list entry) : Z :=
  Z.of_nat (length (List.filter
                      (fun e => match kept version e with
                                | [] => false
                                | _ :: _ => true
                                end) t)).

(** The quorum rule read on filtered lists: the loop runs while fewer
    than two calls gave a non-empty filtered list, and ends on the last
    candidate or on the second such call. *)
Definition stops_on_filtered_quorum : Prop :=
  forall (initialPeers : gmap string (list peer))
         (sortPeers shuffle : list peer -> list peer)
         (w : env) (h : list entry) (network : string) (version : value)
         (peersOverride : override) (cands : list peer),
    candidates initialPeers network peersOverride = Some cands ->
    exists t,
      snd (run w h (findPeers initialPeers sortPeers shuffle network version
                      peersOverride)) = h ++ t
      /\ (forall t1 e t2,
            t = t1 ++ e :: t2 -> nkept (defaultTo1 version) t1 < 2)
      /\ (length t = length cands \/ nkept (defaultTo1 version) t = 2).

(** The reading of an empty override as an absent one: on a network
    without seed entry the selection of the candidate list falls back to
    the missing seed entry, so that the loop is given no list at all. *)
Definition empty_override_taken_as_absent : Prop :=
  forall (initialPeers : gmap string (list peer)) (network : string),
    initialPeers !! network = None ->
    candidates initialPeers network (OvPeers []) = initialPeers !! network.

(** A comparator that throws on the empty list and returns any other
    list as it is. *)
Definition throwsOnEmpty (l : list peer) : result (list peer) :=
  match l with
  | [] => Err TypeError
  | _ :: _ => Ok l
  end.

(** *** The claims on [findPeers] *)

Lemma kept_of_rejecting (w : env) (version : value) (e : entry) :
  (forall h c, onPeers w h c = PeersRejected) ->
  answered w e -> kept version e = [].
Proof.
  intros Hw Ha. destruct e as [c r|c m ep r]; [|done].
  destruct Ha as [h ->]. unfold kept, accepted. by rewrite Hw.
Qed.

(** C1. For a candidate list that is there and not empty, [findPeers]
    returns a list that is not empty: the sorted copy of the merged
    accumulated peers when some probe contributed kept peers, and the
    sorted copy of the candidate list otherwise, in particular when every
    probe is rejected.  The comparator module is taken to permute its
    argument. *)
Theorem findPeers_never_empty
    (initialPeers : gmap string (list peer))
    (sortPeers shuffle : list peer -> list peer)
    (w : env) (h : list entry) (network : string) (version : value)
    (peersOverride : override) (cands : list peer) :
  (forall l, Permutation (sortPeers l) l) ->
  candidates initialPeers network peersOverride = Some cands ->
  cands <> [] ->
  exists t result,
    run w h (findPeers initialPeers sortPeers shuffle network version peersOverride)
    = (Ok result, h ++ t)
    /\ result <> []
    /\ (Exists (fun e => kept (defaultTo1 version) e <> []) t ->
        result = cloneDeep (sortPeers (accumulate (defaultTo1 version) t [])))
    /\ (Forall (fun e => kept (defaultTo1 version) e = []) t ->
        result = cloneDeep (sortPeers cands))
    /\ ((forall h' c, onPeers w h' c = PeersRejected) ->
        result = cloneDeep (sortPeers cands)).
Proof.
  intros Hsort Hc Hne.
  destruct (findPeers_run initialPeers sortPeers shuffle w h network version
              peersOverride cands Hc) as (t & Hrun & _ & Hans).
  eexists t, _. split; [exact Hrun |].
  pose proof (accumulate_nil (defaultTo1 version) t []) as Hnil.
  assert (Hall : Forall (fun e => kept (defaultTo1 version) e = []) t ->
                 accumulate (defaultTo1 version) t [] = []) by (intros; by apply Hnil).
  destruct (accumulate (defaultTo1 version) t []) as [|a acc] eqn:E.
  - split; [|split; [|split]].
    + unfold cloneDeep. intros Hs. apply Hne.
      pose proof (Hsort cands) as HP. rewrite Hs in HP.
      by apply Permutation_nil in HP.
    + intros Hex. exfalso. destruct Hnil as [Hnil _].
      destruct (Hnil eq_refl) as [_ Hf].
      apply Exists_exists in Hex as (e & He & Hk).
      rewrite Forall_forall in Hf. by apply Hk, Hf.
    + done.
    + done.
  - split; [|split; [|split]].
    + unfold cloneDeep. intros Hs.
      pose proof (Hsort (a :: acc)) as HP. rewrite Hs in HP.
      by apply Permutation_nil in HP.
    + done.
    + intros Hf. by specialize (Hall Hf).
    + intros Hw. assert (Hf : Forall (fun e => kept (defaultTo1 version) e = []) t).
      { eapply Forall_impl; [exact Hans |]. intros e He. simpl.
        by apply (kept_of_rejecting w). }
      by specialize (Hall Hf).
Qed.

(** A candidate list of one seed on a dead network. *)
Lemma findPeers_never_empty_witness :
  (forall l : list peer, Permutation ((fun l => l) l) l)
  /\ candidates ∅ "devnet" (OvPeers [seedA]) = Some [seedA]
  /\ [seedA] <> []
  /\ exists t result,
       run deadNetwork []
         (findPeers ∅ (fun l => l) (fun l => l) "devnet" (VNum 1) (OvPeers [seedA]))
       = (Ok result, [] ++ t)
       /\ result <> []
       /\ (Exists (fun e => kept (defaultTo1 (VNum 1)) e <> []) t ->
           result = cloneDeep (accumulate (defaultTo1 (VNum 1)) t []))
       /\ (Forall (fun e => kept (defaultTo1 (VNum 1)) e = []) t ->
           result = cloneDeep [seedA])
       /\ ((forall h' c, onPeers deadNetwork h' c = PeersRejected) ->
           result = cloneDeep [seedA]).
Proof.
  split; [intros l; apply Permutation_refl |].
  split; [reflexivity |].
  split; [discriminate |].
  apply (findPeers_never_empty ∅ (fun l => l) (fun l => l) deadNetwork []
           "devnet" (VNum 1) (OvPeers [seedA]) [seedA]).
  - intros l. apply Permutation_refl.
  - reflexivity.
  - discriminate.
Defined.

Lemma kept_counts (version : value) (e : entry) :
  kept version e <> [] -> counts version e = true.
Proof.
  unfold kept, counts. by destruct (accepted version e).
Qed.

(** C2, as the code has it.  The calls of [findPeers] go to the
    candidates in the order of the candidate list; a call is counted as a
    successful check when the peer list read off its reply is not empty
    before it is filtered (so every call with a non-empty filtered list is
    counted, and so is one whose peers are all filtered out); before each
    call fewer than two checks had been counted, and the loop ends on the
    last candidate or on the second counted call. *)
Theorem probing_stops_at_second_check
    (initialPeers : gmap string (list peer))
    (sortPeers shuffle : list peer -> list peer)
    (w : env) (h : list entry) (network : string) (version : value)
    (peersOverride : override) (cands : list peer) :
  candidates initialPeers network peersOverride = Some cands ->
  exists t,
    snd (run w h (findPeers initialPeers sortPeers shuffle network version
                    peersOverride)) = h ++ t
    /\ map entry_host t = take (length t) (map peerUrl cands)
    /\ (forall t1 e t2,
          t = t1 ++ e :: t2 -> nchecks (defaultTo1 version) t1 < 2)
    /\ (length t = length cands \/ nchecks (defaultTo1 version) t = 2)
    /\ (forall e, counts (defaultTo1 version) e = true
                  <-> accepted (defaultTo1 version) e <> [])
    /\ (forall e, kept (defaultTo1 version) e <> []
                  -> counts (defaultTo1 version) e = true).
Proof.
  intros Hc.
  destruct (findPeers_run initialPeers sortPeers shuffle w h network version
              peersOverride cands Hc) as (t & Hrun & [H1 H2 H3 H4] & _).
  exists t. rewrite Hrun. simpl.
  repeat split; auto.
  - unfold counts. by destruct (accepted _ e).
  - unfold counts. by destruct (accepted _ e).
  - apply kept_counts.
Qed.

(** Three seeds on the loopback network. *)
Lemma probing_stops_at_second_check_witness :
  candidates ∅ "devnet" (OvPeers [seedA; seedB; seedC]) = Some [seedA; seedB; seedC]
  /\ exists t,
       snd (run loopbackNetwork []
              (findPeers ∅ (fun l => l) (fun l => l) "devnet" (VNum 1)
                 (OvPeers [seedA; seedB; seedC]))) = [] ++ t
       /\ map entry_host t = take (length t) (map peerUrl [seedA; seedB; seedC])
       /\ (forall t1 e t2,
             t = t1 ++ e :: t2 -> nchecks (defaultTo1 (VNum 1)) t1 < 2)
       /\ (length t = length [seedA; seedB; seedC]
           \/ nchecks (defaultTo1 (VNum 1)) t = 2)
       /\ (forall e, counts (defaultTo1 (VNum 1)) e = true
                     <-> accepted (defaultTo1 (VNum 1)) e <> [])
       /\ (forall e, kept (defaultTo1 (VNum 1)) e <> []
                     -> counts (defaultTo1 (VNum 1)) e = true).
Proof.
  split; [reflexivity |].
  apply (probing_stops_at_second_check ∅ (fun l => l) (fun l => l)
           loopbackNetwork [] "devnet" (VNum 1) (OvPeers [seedA; seedB; seedC])
           [seedA; seedB; seedC]).
  reflexivity.
Defined.

(** C2, as the specification words it, fails.  On the loopback network
    the first two of three candidates answer with a non-empty list that
    the filter empties: no call has a non-empty filtered list, the third
    candidate is untried, and the loop has stopped all the same. *)
Lemma quorum_counts_unfiltered_replies :
  let t := snd (run loopbackNetwork []
                  (findPeers ∅ (fun l => l) (fun l => l) "devnet" (VNum 1)
                     (OvPeers [seedA; seedB; seedC]))) in
  map entry_host t = [peerUrl seedA; peerUrl seedB]
  /\ Forall (fun e => kept (VNum 1) e = []) t
  /\ nkept (VNum 1) t = 0
  /\ length [seedA; seedB; seedC] = 3%nat
  /\ ~ stops_on_filtered_quorum.
Proof.
  assert (Ht : snd (run loopbackNetwork []
                  (findPeers ∅ (fun l => l) (fun l => l) "devnet" (VNum 1)
                     (OvPeers [seedA; seedB; seedC])))
               = [PeersCall
                    (mkClient (mkHttp (peerUrl seedA) (VNum 1) (Some 5000)) (VNum 1))
                    loopbackReply;
                  PeersCall
                    (mkClient (mkHttp (peerUrl seedB) (VNum 1) (Some 5000)) (VNum 1))
                    loopbackReply])
    by (vm_compute; reflexivity).
  cbv zeta. rewrite Ht.
  split; [reflexivity |].
  split; [repeat constructor |].
  split; [vm_compute; reflexivity |].
  split; [reflexivity |].
  intros H.
  destruct (H ∅ (fun l => l) (fun l => l) loopbackNetwork [] "devnet" (VNum 1)
              (OvPeers [seedA; seedB; seedC]) [seedA; seedB; seedC] eq_refl)
    as (t & Hsnd & _ & Hstop).
  rewrite Ht in Hsnd. simpl in Hsnd. subst t.
  destruct Hstop as [Hlen | Hq].
  - simpl in Hlen. discriminate.
  - vm_compute in Hq. discriminate.
Qed.

Lemma indexOf_lower (l : list value) (v : value) : -1 <= indexOf l v.
Proof.
  induction l as [|x l IH]; simpl; [lia |].
  destruct (strictEq x v); [lia |].
  destruct (indexOf l v =? -1)%Z eqn:E; lia.
Qed.

Lemma indexOf_absent (l : list value) (v : value) :
  indexOf l v = -1 <-> v ∉ l.
Proof.
  induction l as [|x l IH]; simpl.
  - split; [intros _ H; by apply elem_of_nil in H | done].
  - rewrite not_elem_of_cons. destruct (strictEq x v) eqn:E.
    + apply Merger.strictEq_true in E. split; [lia | intros [H _]; congruence].
    + assert (x <> v).
      { intros ->. unfold strictEq in E. by rewrite bool_decide_true in E. }
      pose proof (indexOf_lower l v).
      destruct (indexOf l v =? -1)%Z eqn:E'.
      * split; [intros _; split; [congruence | apply IH; lia] | done].
      * split; [lia |]. intros [_ H']. apply IH in H'. lia.
Qed.

Lemma includes_versionStatus (v : value) :
  includes versionStatus v = true <-> v = VStr "OK" \/ v = VNum 200.
Proof.
  unfold includes, versionStatus. simpl.
  rewrite !orb_true_iff, !Merger.strictEq_true. intuition congruence.
Qed.

Lemma keepPeer_spec (version : value) (p : peer) :
  keepPeer version p = true
  <-> (get "ip" p ∉ selfIps)
      /\ (version = VNum 1 -> get "status" p = VStr "OK" \/ get "status" p = VNum 200)
      /\ VNum (getPeerVersion p) = version.
Proof.
  unfold keepPeer.
  destruct (strictEq version (VNum 1)) eqn:Ev.
  - apply Merger.strictEq_true in Ev. subst version.
    destruct (includes versionStatus (get "status" p)) eqn:Es; cbn [andb negb].
    + apply includes_versionStatus in Es.
      rewrite andb_true_iff, Z.eqb_eq, indexOf_absent, Merger.strictEq_true.
      tauto.
    + split; [done |]. intros (_ & H & _).
      specialize (H eq_refl). apply includes_versionStatus in H. congruence.
  - cbn [andb negb].
    assert (version <> VNum 1).
    { intros ->. unfold strictEq in Ev. by rewrite bool_decide_true in Ev. }
    rewrite andb_true_iff, Z.eqb_eq, indexOf_absent, Merger.strictEq_true.
    tauto.
Qed.

Lemma getPeerVersion_spec (p : peer) :
  (getPeerVersion p = 1
   <-> truthy (get "version" p) = false
       \/ String.prefix "1." (toString (get "version" p)) = true)
  /\ (getPeerVersion p = 2
      <-> truthy (get "version" p) = true
          /\ String.prefix "1." (toString (get "version" p)) = false).
Proof.
  unfold getPeerVersion, matchesV1.
  destruct (truthy (get "version" p));
    destruct (String.prefix "1." (toString (get "version" p))); simpl;
    intuition (try discriminate; try lia).
Qed.

(** C4. A peer of a reply is kept exactly when its [ip] is none of the
    self addresses, its [status] is ["OK"] or [200] if version 1 is
    probed for, and its classified version is the version probed for;
    the classifier answers 1 exactly when the [version] field is falsy or
    starts with ["1."], and 2 otherwise.  The peers [findPeers] merges
    from a counted reply are the kept peers of its list, and the three
    cases of the specification are dropped as it says. *)
Theorem response_filter_spec :
  (forall (version : value) (p : peer),
     keepPeer version p = true
     <-> (get "ip" p ∉ selfIps)
         /\ (version = VNum 1 ->
             get "status" p = VStr "OK" \/ get "status" p = VNum 200)
         /\ VNum (getPeerVersion p) = version)
  /\ (forall p : peer,
        (getPeerVersion p = 1
         <-> truthy (get "version" p) = false
             \/ String.prefix "1." (toString (get "version" p)) = true)
        /\ (getPeerVersion p = 2
            <-> truthy (get "version" p) = true
                /\ String.prefix "1." (toString (get "version" p)) = false))
  /\ (forall (version : value) (e : entry) (p : peer),
        In p (kept version e)
        <-> In p (accepted version e) /\ keepPeer version p = true)
  /\ (forall (initialPeers : gmap string (list peer))
             (sortPeers shuffle : list peer -> list peer)
             (w : env) (h : list entry) (network : string) (version : value)
             (peersOverride : override) (cands : list peer),
        candidates initialPeers network peersOverride = Some cands ->
        exists t,
          run w h (findPeers initialPeers sortPeers shuffle network version
                     peersOverride)
          = (Ok (cloneDeep (sortPeers
                   match accumulate (defaultTo1 version) t [] with
                   | [] => cands
                   | _ :: _ => accumulate (defaultTo1 version) t []
                   end)), h ++ t))
  /\ (forall (version : value) (p : peer),
        get "ip" p = VStr "127.0.0.1" -> keepPeer version p = false)
  /\ (forall p : peer,
        get "status" p = VNum 500 -> keepPeer (VNum 1) p = false)
  /\ (forall p : peer,
        getPeerVersion p = 2 -> keepPeer (VNum 1) p = false).
Proof.
  split; [exact keepPeer_spec |].
  split; [exact getPeerVersion_spec |].
  split; [intros version e p; unfold kept; apply filter_In |].
  split.
  { intros initialPeers sortPeers shuffle w h network version peersOverride
           cands Hc.
    destruct (findPeers_run initialPeers sortPeers shuffle w h network version
                peersOverride cands Hc) as (t & Hrun & _).
    by exists t. }
  split.
  { intros version p Hip. apply not_true_is_false. intros H.
    apply keepPeer_spec in H as [H _]. apply H. rewrite Hip.
    unfold selfIps. constructor. }
  split.
  { intros p Hs. apply not_true_is_false. intros H.
    apply keepPeer_spec in H as (_ & H & _).
    destruct (H eq_refl) as [H'|H']; congruence. }
  intros p Hv. apply not_true_is_false. intros H.
  apply keepPeer_spec in H as (_ & _ & H). congruence.
Qed.

(** C5, on the code.  The array that [shuffle] returns is dropped: the
    computation is the same whatever [shuffle] does, and with a [shuffle]
    that reverses its argument the two candidates are still probed in the
    order they were given in. *)
Theorem shuffle_result_is_dropped :
  (forall (initialPeers : gmap string (list peer))
          (sortPeers shuffle shuffle' : list peer -> list peer)
          (network : string) (version : value) (peersOverride : override),
     findPeers initialPeers sortPeers shuffle network version peersOverride
     = findPeers initialPeers sortPeers shuffle' network version peersOverride)
  /\ map entry_host
       (snd (run deadNetwork []
               (findPeers ∅ (fun l => l) (@rev peer) "devnet" (VNum 1)
                  (OvPeers [seedA; seedB]))))
     = map peerUrl [seedA; seedB]
  /\ map peerUrl (rev [seedA; seedB]) = ["http://10.0.0.2:4001"; "http://10.0.0.1:4001"]
  /\ map peerUrl [seedA; seedB] = ["http://10.0.0.1:4001"; "http://10.0.0.2:4001"].
Proof.
  split; [reflexivity |].
  split; [vm_compute; reflexivity |].
  split; vm_compute; reflexivity.
Qed.

Lemma findPeersT_returning
    (initialPeers : gmap string (list peer))
    (sortPeers shuffle : list peer -> list peer)
    (network : string) (version : value) (peersOverride : override) :
  findPeersT initialPeers (fun l => Ok (sortPeers l)) shuffle network version
    peersOverride
  = findPeers initialPeers sortPeers shuffle network version peersOverride.
Proof. reflexivity. Qed.

Lemma connectT_returning
    (initialPeers : gmap string (list peer))
    (sortPeers shuffle : list peer -> list peer)
    (network : string) (version : value) (peersOverride : override) :
  connectT initialPeers (fun l => Ok (sortPeers l)) shuffle network version
    peersOverride
  = connect initialPeers sortPeers shuffle network version peersOverride.
Proof. reflexivity. Qed.

Lemma findPeersT_run
    (initialPeers : gmap string (list peer))
    (sortPeers : list peer -> result (list peer))
    (shuffle : list peer -> list peer)
    (w : env) (h : list entry) (network : string)
    (version : value) (peersOverride : override) (cands : list peer) :
  candidates initialPeers network peersOverride = Some cands ->
  exists t,
    run w h (findPeersT initialPeers sortPeers shuffle network version peersOverride)
    = (match sortPeers
               match accumulate (defaultTo1 version) t [] with
               | [] => cands
               | _ :: _ => accumulate (defaultTo1 version) t []
               end with
       | Ok sorted => Ok (cloneDeep sorted)
       | Err e => Err e
       end, h ++ t)
    /\ probe_trace (defaultTo1 version) cands 0 t
    /\ Forall (answered w) t.
Proof.
  intros Hc.
  assert (Hbody :
    findPeersT initialPeers sortPeers shuffle network version peersOverride
    = bind (probeLoop (defaultTo1 version)
              (mkClient (http_setTimeout
                           (newHttpClient "http://"
                              (orElse (defaultTo1 version) (VNum 1))) 5000)
                        (orElse (defaultTo1 version) (VNum 1)))
              cands 0 [])
           (fun peers =>
              match sortPeers
                      match peers with [] => cands | _ :: _ => peers end with
              | Ok sorted => Ret (cloneDeep sorted)
              | Err e => Throw e
              end)).
  { unfold findPeersT. rewrite constructor_ok, Hc.
    destruct peersOverride; simpl in Hc; try rewrite Hc; reflexivity. }
  rewrite Hbody, run_bind.
  destruct (probeLoop_run w (defaultTo1 version) cands
              (mkClient (http_setTimeout
                           (newHttpClient "http://"
                              (orElse (defaultTo1 version) (VNum 1))) 5000)
                        (orElse (defaultTo1 version) (VNum 1)))
              0 [] h) as (t & Hrun & Ht & Hans); [lia |].
  exists t. rewrite Hrun. split; [|by split].
  by destruct (sortPeers _).
Qed.

(** C10, as the code has it.  On a network without seed entry, an empty
    array given as override is kept as the candidate list (an array is
    truthy): the loop is given the empty list, no call is made, and the
    empty candidate list is handed to the comparator, so that [findPeers]
    ends as the comparator ends on the empty list; the exception of a
    comparator that throws there leaves [findPeers].  The fall-back to
    the missing seed entry, with the [TypeError] of a loop over no list,
    is what happens for the override [null]; and leaving the override out
    raises the unsupported-network error. *)
Theorem empty_override_is_kept
    (initialPeers : gmap string (list peer))
    (sortPeers : list peer -> result (list peer))
    (shuffle : list peer -> list peer)
    (w : env) (h : list entry) (network : string) (version : value) :
  initialPeers !! network = None ->
  candidates initialPeers network (OvPeers []) = Some []
  /\ run w h (findPeersT initialPeers sortPeers shuffle network version (OvPeers []))
     = (match sortPeers [] with
        | Ok sorted => Ok (cloneDeep sorted)
        | Err e => Err e
        end, h)
  /\ (forall e, sortPeers [] = Err e ->
        run w h (findPeersT initialPeers sortPeers shuffle network version
                   (OvPeers []))
        = (Err e, h))
  /\ candidates initialPeers network OvNull = None
  /\ run w h (findPeersT initialPeers sortPeers shuffle network version OvNull)
     = (Err TypeError, h)
  /\ run w h (findPeersT initialPeers sortPeers shuffle network version OvUndefined)
     = (Err (UnsupportedNetworkError network), h).
Proof.
  intros Hn.
  assert (Hrun :
    run w h (findPeersT initialPeers sortPeers shuffle network version (OvPeers []))
    = (match sortPeers [] with
       | Ok sorted => Ok (cloneDeep sorted)
       | Err e => Err e
       end, h)).
  { unfold findPeersT, candidates. rewrite constructor_ok. simpl.
    by destruct (sortPeers []). }
  split; [done |]. split; [exact Hrun |].
  split; [intros e He; by rewrite Hrun, He |].
  split; [exact Hn |].
  unfold findPeersT, candidates. rewrite constructor_ok, Hn. simpl. auto.
Qed.

Lemma empty_override_is_kept_witness :
  (∅ : gmap string (list peer)) !! "nonet" = None
  /\ candidates ∅ "nonet" (OvPeers []) = Some []
  /\ run deadNetwork []
       (findPeersT ∅ throwsOnEmpty (fun l => l) "nonet" (VNum 1) (OvPeers []))
     = (match throwsOnEmpty [] with
        | Ok sorted => Ok (cloneDeep sorted)
        | Err e => Err e
        end, [])
  /\ (forall e, throwsOnEmpty [] = Err e ->
        run deadNetwork []
          (findPeersT ∅ throwsOnEmpty (fun l => l) "nonet" (VNum 1) (OvPeers []))
        = (Err e, []))
  /\ candidates ∅ "nonet" OvNull = None
  /\ run deadNetwork []
       (findPeersT ∅ throwsOnEmpty (fun l => l) "nonet" (VNum 1) OvNull)
     = (Err TypeError, [])
  /\ run deadNetwork []
       (findPeersT ∅ throwsOnEmpty (fun l => l) "nonet" (VNum 1) OvUndefined)
     = (Err (UnsupportedNetworkError "nonet"), []).
Proof.
  split; [apply lookup_empty |].
  apply (empty_override_is_kept ∅ throwsOnEmpty (fun l => l) deadNetwork []
           "nonet" (VNum 1)).
  apply lookup_empty.
Defined.

(** C10, as the claim words it, fails in its account of the selection:
    with the empty array as override on an unknown network the candidate
    list is the empty array, not the missing seed entry, and the loop is
    given a list.  The [TypeError] that leaves [findPeers] with a
    comparator that throws on the empty list comes from the comparator. *)
Lemma empty_override_is_not_absent :
  (∅ : gmap string (list peer)) !! "nonet" = None
  /\ candidates ∅ "nonet" (OvPeers []) = Some []
  /\ run deadNetwork []
       (findPeersT ∅ throwsOnEmpty (fun l => l) "nonet" (VNum 1) (OvPeers []))
     = (Err TypeError, [])
  /\ throwsOnEmpty [] = Err TypeError
  /\ ~ empty_override_taken_as_absent.
Proof.
  split; [apply lookup_empty |].
  split; [reflexivity |].
  split; [vm_compute; reflexivity |].
  split; [reflexivity |].
  intros H. specialize (H ∅ "nonet" (lookup_empty _)).
  rewrite lookup_empty in H. discriminate.
Qed.

End Prober.

(** ** The API peer resolver *)

Module Resolver.

Import Prober.

(** The request of a configuration call. *)
Definition getRequest (e : entry) : option (HttpClient * string * option string) :=
  match e with
  | GetCall c m ep _ => Some (c, m, ep)
  | PeersCall _ _ => None
  end.

(** The requests the table of attempts stands for: a fresh version-2
    transport on the host of the attempt, the method [get], the endpoint
    of the attempt. *)
Definition requestOf (a : string * option string)
  : HttpClient * string * option string :=
  (newHttpClient (fst a) (VNum 2), "get", snd a).

(** An attempt failed when its call was rejected or resolved with a falsy
    [data]. *)
Definition failed (e : entry) : Prop :=
  match e with
  | GetCall _ _ _ (GetResolved (Some _)) => False
  | _ => True
  end.

(** The regular expression [/:\d/] finds a match in the string. *)
Fixpoint colonDigit (s : string) : bool :=
  match s with
  | EmptyString => false
  | String c r =>
      (bool_decide (c = ":"%char) && startsWithDigit r) || colonDigit r
  end.

Fixpoint allDigits (s : string) : bool :=
  match s with
  | EmptyString => true
  | String c r => isDigit c && allDigits r
  end.

Lemma dropDigits_all (s : string) : allDigits s = true -> dropDigits s = "".
Proof.
  induction s as [|c r IH]; simpl; [done |].
  intros H. apply andb_true_iff in H as [Hc Hr]. rewrite Hc. by apply IH.
Qed.

Lemma replacePort_port (pre port : string) :
  colonDigit pre = false -> allDigits port = true -> port <> "" ->
  replacePort (pre +:+ ":" +:+ port) = pre +:+ ":4040".
Proof.
  intros Hpre Hport Hne. induction pre as [|c r IH].
  - destruct port as [|d port]; [done |].
    simpl in Hport. apply andb_true_iff in Hport as [Hd Hp].
    change ("" +:+ ":" +:+ String d port) with (String ":"%char (String d port)).
    cbn [replacePort startsWithDigit]. rewrite Hd.
    rewrite bool_decide_true by done. cbn [andb dropDigits].
    rewrite Hd. by rewrite dropDigits_all.
  - simpl in Hpre. apply orb_false_iff in Hpre as [Hc Hr].
    change (String c r +:+ ":" +:+ port) with (String c (r +:+ ":" +:+ port)).
    cbn [replacePort].
    assert (Hs : bool_decide (c = ":"%char)
                 && startsWithDigit (r +:+ ":" +:+ port) = false).
    { destruct (bool_decide (c = ":"%char)); [|done]. simpl in *.
      destruct r as [|c' r']; [done |]. exact Hc. }
    rewrite Hs. by rewrite IH.
Qed.

Section Fetch.

Variable w : env.

(** The loop over the attempts always returns; its calls are the
    requests of a prefix of the attempts, in order, and it ends on the
    first attempt that did not fail, with its payload, or after the last
    one, with [null]. *)
Lemma tryAttempts_run (l : list (string * option string)) :
  forall h : list entry,
    exists t r,
      run w h (tryAttempts l) = (Ok r, h ++ t)
      /\ map getRequest t = take (length t) (map (fun a => Some (requestOf a)) l)
      /\ Forall (answered w) t
      /\ ((exists t' c m ep d,
             t = t' ++ [GetCall c m ep (GetResolved (Some d))]
             /\ Forall failed t' /\ r = d)
          \/ (length t = length l /\ Forall failed t /\ r = PNull)).
Proof.
  induction l as [|a rest IH]; intros h.
  - exists [], PNull. simpl. rewrite app_nil_r.
    repeat split; auto.
  - cbn [tryAttempts run]. cbv zeta.
    set (c := newHttpClient (fst a) (VNum 2)).
    set (reply := onGet w h c "get" (snd a)).
    set (e := GetCall c "get" (snd a) reply).
    assert (Ha : answered w e) by (by exists h).
    assert (Hcontinue :
      failed e ->
      exists t r,
        run w (h ++ [e]) (tryAttempts rest) = (Ok r, h ++ t)
        /\ map getRequest t
           = take (length t) (map (fun a => Some (requestOf a)) (a :: rest))
        /\ Forall (answered w) t
        /\ ((exists t' c m ep d,
               t = t' ++ [GetCall c m ep (GetResolved (Some d))]
               /\ Forall failed t' /\ r = d)
            \/ (length t = length (a :: rest) /\ Forall failed t /\ r = PNull))).
    { intros Hf.
      destruct (IH (h ++ [e])) as (t & r & Hrun & Hreq & Hans & Hend).
      exists (e :: t), r. rewrite Hrun, <- app_assoc.
      split; [done |].
      split; [simpl; by rewrite Hreq |].
      split; [by constructor |].
      destruct Hend as [(t' & c' & m & ep & d & -> & Hf' & ->) | (Hlen & Hf' & ->)].
      - left. exists (e :: t'), c', m, ep, d. repeat split; auto.
      - right. simpl. repeat split; auto. }
    destruct reply as [|[d|]] eqn:Hreply.
    + by apply Hcontinue.
    + exists [e], d. cbn [run]. split; [done |].
      split; [done |]. split; [by repeat constructor |].
      left. exists [], c, "get", (snd a), d. repeat split; auto.
    + by apply Hcontinue.
Qed.

End Fetch.

(** *** Sample configuration service *)

(** The configuration of a node that serves the API on port 4003. *)
Definition apiConfig : payload :=
  PConfig (mkConfig (Some {[ "@arkecosystem/core-api" :=
                               mkPeer [("enabled", VBool true); ("port", VNum 4003)] ]})).

(** A network on which one host answers configuration requests, whatever
    the endpoint, and every other call is rejected. *)
Definition configAt (host : string) : env :=
  mkEnv (fun _ _ => PeersRejected)
        (fun _ c _ _ =>
           if bool_decide (http_host c = host) then GetResolved (Some apiConfig)
           else GetRejected).

(** *** The claims on the resolver *)

(** C6, as the code has it.  [fetchPeerConfig host] always returns.  Its
    calls are, in order,
    a prefix of three [get] requests on fresh version-2 transports: the
    host at [/config], the host with its port rewritten to 4040 at
    [/config], and that host without endpoint.  It ends on the first call
    that resolved with data and returns the payload of that call, so that
    no later attempt is made; every rejected or empty call is passed
    over; and after three failed calls it returns [null].  The rewritten
    host is the prefix of the host before its port, followed by [:4040],
    when no colon of that prefix stands before a digit. *)
Theorem fetchPeerConfig_attempts :
  (forall (w : env) (h : list entry) (host : string),
     exists t r,
       run w h (fetchPeerConfig host) = (Ok r, h ++ t)
       /\ map getRequest t
          = take (length t)
              [ Some (newHttpClient host (VNum 2), "get", Some "/config");
                Some (newHttpClient (replacePort host) (VNum 2), "get", Some "/config");
                Some (newHttpClient (replacePort host) (VNum 2), "get", None) ]
       /\ Forall (answered w) t
       /\ ((exists t' c m ep d,
              t = t' ++ [GetCall c m ep (GetResolved (Some d))]
              /\ Forall failed t' /\ r = d)
           \/ (length t = 3%nat /\ Forall failed t /\ r = PNull)))
  /\ (forall pre port : string,
        colonDigit pre = false -> allDigits port = true -> port <> "" ->
        replacePort (pre +:+ ":" +:+ port) = pre +:+ ":4040")
  /\ replacePort "http://10.0.0.1:4001" = "http://10.0.0.1:4040"
  /\ run (configAt "http://10.0.0.1:4040") [] (fetchPeerConfig "http://10.0.0.1:4001")
     = (Ok apiConfig,
        [ GetCall (newHttpClient "http://10.0.0.1:4001" (VNum 2)) "get"
                  (Some "/config") GetRejected;
          GetCall (newHttpClient "http://10.0.0.1:4040" (VNum 2)) "get"
                  (Some "/config") (GetResolved (Some apiConfig)) ])
  /\ run deadNetwork [] (fetchPeerConfig "http://10.0.0.1:4001")
     = (Ok PNull,
        [ GetCall (newHttpClient "http://10.0.0.1:4001" (VNum 2)) "get"
                  (Some "/config") GetRejected;
          GetCall (newHttpClient "http://10.0.0.1:4040" (VNum 2)) "get"
                  (Some "/config") GetRejected;
          GetCall (newHttpClient "http://10.0.0.1:4040" (VNum 2)) "get"
                  None GetRejected ]).
Proof.
  split.
  { intros w h host. exact (tryAttempts_run w (attempts host) h). }
  split; [exact replacePort_port |].
  split; [vm_compute; reflexivity |].
  split; vm_compute; reflexivity.
Qed.

(** The rule that the second and third attempt go to the host with its
    port replaced by 4040, for every host that ends in a port. *)
Definition port_always_replaced : Prop :=
  forall pre port : string,
    allDigits port = true -> port <> "" ->
    map fst (attempts (pre +:+ ":" +:+ port))
    = [ pre +:+ ":" +:+ port; pre +:+ ":4040"; pre +:+ ":4040" ].

(** C6, as the claim words it, fails for a host in which a colon stands
    before a digit ahead of the port: the expression rewrites that
    leftmost group and leaves the port.  So it is for the bracketed IPv6
    host [http://[::1]:4003], whose second and third attempt go to
    [http://[::4040]:4003], and for the host that [selectApiPeer] builds
    for a peer whose [ip] is an IPv4-mapped address. *)
Lemma port_rewriting_misses_the_port :
  attempts "http://[::1]:4003"
  = [ ("http://[::1]:4003", Some "/config");
      ("http://[::4040]:4003", Some "/config");
      ("http://[::4040]:4003", None) ]
  /\ map entry_host
       (snd (run deadNetwork [] (fetchPeerConfig "http://[::1]:4003")))
     = [ "http://[::1]:4003"; "http://[::4040]:4003"; "http://[::4040]:4003" ]
  /\ httpUrl (mkPeer [("ip", VStr "::ffff:10.0.0.1"); ("port", VNum 4001)])
     = "http://::ffff:10.0.0.1:4001"
  /\ replacePort "http://::ffff:10.0.0.1:4001" = "http://::ffff:4040.0.0.1:4001"
  /\ ~ port_always_replaced.
Proof.
  split; [vm_compute; reflexivity |].
  split; [vm_compute; reflexivity |].
  split; [vm_compute; reflexivity |].
  split; [vm_compute; reflexivity |].
  intros H. specialize (H "http://[::1]" "4003" eq_refl).
  assert (Hne : "4003" <> "") by discriminate.
  specialize (H Hne). vm_compute in H. discriminate.
Qed.

Lemma fetchPeerConfig_returns (w : env) (h : list entry) (host : string) :
  exists cfg h', run w h (fetchPeerConfig host) = (Ok cfg, h').
Proof.
  destruct (tryAttempts_run w (attempts host) h) as (t & r & Hrun & _).
  by exists r, (h ++ t).
Qed.

Lemma selectApiPeer_cons (w : env) (h : list entry) (p : peer) (rest : list peer)
    (cfg : payload) (h1 : list entry) :
  run w h (fetchPeerConfig (httpUrl p)) = (Ok cfg, h1) ->
  run w h (selectApiPeer (p :: rest))
  = match coreApi cfg with
    | Some plugin => (Ok (Some (<["port" := get "port" plugin]> p)), h1)
    | None => run w h1 (selectApiPeer rest)
    end.
Proof.
  intros Hf. cbn [selectApiPeer]. cbv zeta. rewrite run_bind, Hf.
  by destruct (coreApi cfg).
Qed.

Lemma selectApiPeer_app (w : env) (l1 l2 : list peer) :
  forall h h1,
    run w h (selectApiPeer l1) = (Ok None, h1) ->
    run w h (selectApiPeer (l1 ++ l2)) = run w h1 (selectApiPeer l2).
Proof.
  induction l1 as [|p l1 IH]; intros h h1 H.
  - simpl in H. by injection H as <-.
  - destruct (fetchPeerConfig_returns w h (httpUrl p)) as (cfg & h' & Hf).
    rewrite (selectApiPeer_cons w h p l1 cfg h' Hf) in H.
    change ((p :: l1) ++ l2) with (p :: (l1 ++ l2)).
    rewrite (selectApiPeer_cons w h p (l1 ++ l2) cfg h' Hf).
    destruct (coreApi cfg); [discriminate |]. by apply IH.
Qed.

(** What it is for [selectApiPeer] to have passed over all of [peers]
    from the history [h]: each peer was reached with no peer before it
    selected, its configuration was fetched then, and the condition on
    that configuration failed. *)
Definition nonePassed (w : env) (h : list entry) (peers : list peer) : Prop :=
  forall l1 p l2,
    peers = l1 ++ p :: l2 ->
    exists h1 h2 cfg,
      run w h (selectApiPeer l1) = (Ok None, h1)
      /\ run w h1 (fetchPeerConfig (httpUrl p)) = (Ok cfg, h2)
      /\ coreApi cfg = None.

(** What it is for [selectApiPeer] to have selected [q]: a peer [p] of
    the list was reached with no peer before it selected, the
    configuration fetched for it satisfied the condition, the run ended
    with that fetch, and [q] is [p] with the port of the plugin record. *)
Definition firstPassed (w : env) (h : list entry) (peers : list peer)
    (q : peer) (h' : list entry) : Prop :=
  exists l1 p l2 h1 cfg plugin,
    peers = l1 ++ p :: l2
    /\ run w h (selectApiPeer l1) = (Ok None, h1)
    /\ run w h1 (fetchPeerConfig (httpUrl p)) = (Ok cfg, h')
    /\ coreApi cfg = Some plugin
    /\ q = <["port" := get "port" plugin]> p.

Lemma selectApiPeer_run (w : env) (peers : list peer) :
  forall h,
    exists r h',
      run w h (selectApiPeer peers) = (Ok r, h')
      /\ match r with
         | Some q => firstPassed w h peers q h'
         | None => nonePassed w h peers
         end.
Proof.
  induction peers as [|p rest IH]; intros h.
  - exists None, h. split; [done |]. intros l1 p l2 H. by destruct l1.
  - destruct (fetchPeerConfig_returns w h (httpUrl p)) as (cfg & h1 & Hf).
    pose proof (selectApiPeer_cons w h p) as Hcons.
    destruct (coreApi cfg) as [plugin|] eqn:Hc.
    + exists (Some (<["port" := get "port" plugin]> p)), h1.
      split; [by rewrite (Hcons rest cfg h1 Hf), Hc |].
      exists [], p, rest, h, cfg, plugin. by repeat split.
    + destruct (IH h1) as (r & h' & Hrun & Hr).
      exists r, h'. split; [by rewrite (Hcons rest cfg h1 Hf), Hc |].
      assert (Hpre : forall l, run w h (selectApiPeer (p :: l))
                               = run w h1 (selectApiPeer l)).
      { intros l. by rewrite (Hcons l cfg h1 Hf), Hc. }
      destruct r as [q|].
      * destruct Hr as (l1 & p' & l2 & h2 & cfg' & plugin & -> & H1 & H2 & H3 & ->).
        exists (p :: l1), p', l2, h2, cfg', plugin.
        repeat split; auto. by rewrite Hpre.
      * intros l1 p' l2 Heq. destruct l1 as [|x l1]; simpl in Heq.
        -- injection Heq as <- <-. by exists h, h1, cfg.
        -- injection Heq as <- ->.
           destruct (Hr l1 p' l2 eq_refl) as (h2 & h3 & cfg' & H1 & H2 & H3).
           exists h2, h3, cfg'. repeat split; auto. by rewrite Hpre.
Qed.

Lemma coreApi_spec (cfg : payload) (plugin : obj) :
  coreApi cfg = Some plugin
  <-> exists c ps,
        cfg = PConfig c /\ plugins c = Some ps
        /\ ps !! "@arkecosystem/core-api" = Some plugin
        /\ truthy (get "enabled" plugin) = true.
Proof.
  split.
  - destruct cfg as [| |c]; simpl; try discriminate.
    destruct (plugins c) as [ps|] eqn:Hp; [|discriminate].
    destruct (ps !! "@arkecosystem/core-api") as [pl|] eqn:Hl; [|discriminate].
    destruct (truthy (get "enabled" pl)) eqn:He; [|discriminate].
    intros [= <-]. by exists c, ps.
  - intros (c & ps & -> & Hp & Hl & He). simpl. by rewrite Hp, Hl, He.
Qed.

(** C7. [selectApiPeer peers] always returns.  It returns [null] on the
    empty list and when every peer, taken in the order of the list, had a
    fetched configuration that does not declare the plugin
    [@arkecosystem/core-api] present and enabled; otherwise it returns
    the first peer whose fetched configuration does, with its [port] set
    to the port of the plugin record, and the run ends with the fetch for
    that peer: no later peer is examined. *)
Theorem selectApiPeer_first_match :
  (forall (w : env) (h : list entry) (peers : list peer),
     exists r h',
       run w h (selectApiPeer peers) = (Ok r, h')
       /\ match r with
          | Some q => firstPassed w h peers q h'
          | None => nonePassed w h peers
          end)
  /\ (forall (w : env) (h : list entry), run w h (selectApiPeer []) = (Ok None, h))
  /\ (forall (w : env) (h h1 h2 : list entry) (l1 l2 : list peer) (p : peer)
             (cfg : payload) (plugin : obj),
        run w h (selectApiPeer l1) = (Ok None, h1) ->
        run w h1 (fetchPeerConfig (httpUrl p)) = (Ok cfg, h2) ->
        coreApi cfg = Some plugin ->
        run w h (selectApiPeer (l1 ++ p :: l2))
        = (Ok (Some (<["port" := get "port" plugin]> p)), h2))
  /\ (forall (cfg : payload) (plugin : obj),
        coreApi cfg = Some plugin
        <-> exists c ps,
              cfg = PConfig c /\ plugins c = Some ps
              /\ ps !! "@arkecosystem/core-api" = Some plugin
              /\ truthy (get "enabled" plugin) = true)
  /\ fst (run (configAt "http://10.0.0.2:4001") []
            (selectApiPeer [seedA; seedB; seedC]))
     = Ok (Some (mkPeer [("ip", VStr "10.0.0.2"); ("port", VNum 4003)]))
  /\ map entry_host
       (snd (run (configAt "http://10.0.0.2:4001") []
               (selectApiPeer [seedA; seedB; seedC])))
     = [ "http://10.0.0.1:4001"; "http://10.0.0.1:4040"; "http://10.0.0.1:4040";
         "http://10.0.0.2:4001" ]
  /\ fst (run deadNetwork [] (selectApiPeer [seedA; seedB; seedC])) = Ok None.
Proof.
  split; [intros w h peers; apply selectApiPeer_run |].
  split; [done |].
  split.
  { intros w h h1 h2 l1 l2 p cfg plugin H1 H2 H3.
    rewrite (selectApiPeer_app w l1 (p :: l2) h h1 H1).
    by rewrite (selectApiPeer_cons w h1 p l2 cfg h2 H2), H3. }
  split; [exact coreApi_spec |].
  split; [vm_compute; reflexivity |].
  split; vm_compute; reflexivity.
Qed.

End Resolver.

(** ** The client facade *)

Module Facade.

Import Prober Resolver.

(** The handle [new ApiClient(host, version)] gives for a truthy
    version: transport and client carry the host and the version. *)
Definition handle (host : string) (version : value) : ApiClient :=
  mkClient (newHttpClient host version) version.

(** The rule that every zero or absent version makes a version-setting
    operation fail, for the constructor as for [setVersion]. *)
Definition zero_version_always_fails : Prop :=
  forall (this : ApiClient) (host : string) (version : value),
    version = VNum 0 \/ version = VUndef ->
    setVersion this version = Err InvalidVersionError
    /\ constructor host version = Err InvalidVersionError.

Lemma newApiClient_truthy (host : string) (version : value) :
  truthy version = true -> newApiClient host version = Ret (handle host version).
Proof.
  intros H. unfold newApiClient. rewrite constructor_ok. unfold orElse.
  by rewrite H.
Qed.

(** C8. [connect] first runs [findPeers] and fails as it fails.  For
    version 1 it takes the first peer of the list returned, without any
    further call; for version 2 it runs [selectApiPeer] on the whole list
    and fails with the no-API-peer error when that returns [null].  The
    handle returned is bound to [http://ip:port] of the chosen peer and to
    the requested version. *)
Theorem connect_spec :
  (forall (initialPeers : gmap string (list peer))
          (sortPeers shuffle : list peer -> list peer)
          (w : env) (h h1 : list entry) (network : string)
          (peersOverride : override) (p : peer) (ps : list peer),
     run w h (findPeers initialPeers sortPeers shuffle network (VNum 1)
                peersOverride) = (Ok (p :: ps), h1) ->
     run w h (connect initialPeers sortPeers shuffle network (VNum 1)
                peersOverride)
     = (Ok (handle (httpUrl p) (VNum 1)), h1))
  /\ (forall (initialPeers : gmap string (list peer))
             (sortPeers shuffle : list peer -> list peer)
             (w : env) (h h1 h2 : list entry) (network : string)
             (peersOverride : override) (peers : list peer),
        run w h (findPeers initialPeers sortPeers shuffle network (VNum 2)
                   peersOverride) = (Ok peers, h1) ->
        run w h1 (selectApiPeer peers) = (Ok None, h2) ->
        run w h (connect initialPeers sortPeers shuffle network (VNum 2)
                   peersOverride)
        = (Err NoApiPeerFoundError, h2))
  /\ (forall (initialPeers : gmap string (list peer))
             (sortPeers shuffle : list peer -> list peer)
             (w : env) (h h1 h2 : list entry) (network : string)
             (peersOverride : override) (peers : list peer) (q : peer),
        run w h (findPeers initialPeers sortPeers shuffle network (VNum 2)
                   peersOverride) = (Ok peers, h1) ->
        run w h1 (selectApiPeer peers) = (Ok (Some q), h2) ->
        run w h (connect initialPeers sortPeers shuffle network (VNum 2)
                   peersOverride)
        = (Ok (handle (httpUrl q) (VNum 2)), h2))
  /\ (forall (initialPeers : gmap string (list peer))
             (sortPeers shuffle : list peer -> list peer)
             (w : env) (h h1 : list entry) (network : string) (version : value)
             (peersOverride : override) (e : error),
        run w h (findPeers initialPeers sortPeers shuffle network version
                   peersOverride) = (Err e, h1) ->
        run w h (connect initialPeers sortPeers shuffle network version
                   peersOverride)
        = (Err e, h1))
  /\ (forall (host : string) (version : value),
        http_host (client_http (handle host version)) = host
        /\ http_version (client_http (handle host version)) = version
        /\ client_version (handle host version) = version)
  /\ fst (run (configAt "http://10.0.0.2:4001") []
            (connect ∅ (fun l => l) (fun l => l) "devnet" (VNum 1)
               (OvPeers [seedA; seedB])))
     = Ok (handle "http://10.0.0.1:4001" (VNum 1))
  /\ fst (run (configAt "http://10.0.0.2:4001") []
            (connect ∅ (fun l => l) (fun l => l) "devnet" (VNum 2)
               (OvPeers [seedA; seedB])))
     = Ok (handle "http://10.0.0.2:4003" (VNum 2))
  /\ fst (run deadNetwork []
            (connect ∅ (fun l => l) (fun l => l) "devnet" (VNum 2)
               (OvPeers [seedA; seedB])))
     = Err NoApiPeerFoundError.
Proof.
  split.
  { intros initialPeers sortPeers shuffle w h h1 network peersOverride p ps Hf.
    unfold connect. rewrite run_bind, Hf.
    change (strictEq (VNum 1) (VNum 1)) with true. cbv iota.
    rewrite run_bind. cbn [run]. by rewrite newApiClient_truthy. }
  split.
  { intros initialPeers sortPeers shuffle w h h1 h2 network peersOverride peers
           Hf Hs.
    unfold connect. rewrite run_bind, Hf.
    change (strictEq (VNum 2) (VNum 1)) with false. cbv iota.
    rewrite !run_bind, Hs. reflexivity. }
  split.
  { intros initialPeers sortPeers shuffle w h h1 h2 network peersOverride peers
           q Hf Hs.
    unfold connect. rewrite run_bind, Hf.
    change (strictEq (VNum 2) (VNum 1)) with false. cbv iota.
    rewrite !run_bind, Hs. cbn [run]. by rewrite newApiClient_truthy. }
  split.
  { intros initialPeers sortPeers shuffle w h h1 network version peersOverride
           e Hf.
    unfold connect. by rewrite run_bind, Hf. }
  split; [done |].
  split; [vm_compute; reflexivity |].
  split; vm_compute; reflexivity.
Qed.

(** C9, as the code has it.  [setVersion] fails with the invalid-version
    error exactly on a falsy version, so on zero and on an absent one,
    and stores any other number in the client and in its transport.  The
    constructor never fails: it replaces a zero or absent version by 1,
    and stores any other number as it is. *)
Theorem version_setting_spec :
  (forall (this : ApiClient) (version : value),
     setVersion this version = Err InvalidVersionError
     <-> truthy version = false)
  /\ (forall this : ApiClient,
        setVersion this (VNum 0) = Err InvalidVersionError
        /\ setVersion this VUndef = Err InvalidVersionError)
  /\ (forall (this : ApiClient) (n : Z),
        n <> 0 ->
        setVersion this (VNum n)
        = Ok (mkClient (http_setVersion (client_http this) (VNum n)) (VNum n)))
  /\ (forall host : string,
        constructor host (VNum 0) = Ok (handle host (VNum 1))
        /\ constructor host VUndef = Ok (handle host (VNum 1)))
  /\ (forall (host : string) (n : Z),
        n <> 0 -> constructor host (VNum n) = Ok (handle host (VNum n))).
Proof.
  split.
  { intros this version. unfold setVersion.
    destruct (truthy version); simpl; split; intros H; congruence. }
  split; [done |].
  split.
  { intros this n Hn. unfold setVersion. simpl.
    destruct (n =? 0)%Z eqn:E; [lia | done]. }
  split; [done |].
  intros host n Hn. rewrite constructor_ok. unfold orElse, handle. simpl.
  destruct (n =? 0)%Z eqn:E; [lia | done].
Qed.

(** C9, as the specification words it, fails for the constructor: given
    the version zero, or none, it builds a client of version 1. *)
Lemma constructor_defaults_version :
  constructor "http://10.0.0.1:4001" (VNum 0)
  = Ok (handle "http://10.0.0.1:4001" (VNum 1))
  /\ constructor "http://10.0.0.1:4001" VUndef
     = Ok (handle "http://10.0.0.1:4001" (VNum 1))
  /\ ~ zero_version_always_fails.
Proof.
  split; [reflexivity |]. split; [reflexivity |].
  intros H.
  destruct (H (handle "" (VNum 1)) "http://10.0.0.1:4001" (VNum 0)) as [_ H'];
    [by left |].
  discriminate.
Qed.

End Facade.

(** * Further properties of the code *)

(** ** Laws of the peer merger *)

Module MergerLaws.

Import Merger.

(** The [ip]s of a peer list, in order. *)
Definition ips (l : list peer) : list value := map (get "ip") l.

Lemma overlay_ip (incoming : list peer) (b : peer) :
  get "ip" (overlay incoming b) = get "ip" b.
Proof.
  unfold overlay, firstSameIp.
  destruct (find _ incoming) as [n|] eqn:E; [|done].
  apply find_some in E as [_ E]. apply strictEq_true in E.
  unfold get in *. rewrite lookup_union.
  destruct (n !! "ip") as [v|] eqn:Hn; simpl in *.
  - rewrite <- E. by destruct (b !! "ip").
  - by destruct (b !! "ip").
Qed.

Lemma ips_placed (incoming base : list peer) :
  ips (map (overlay incoming) base) = ips base.
Proof.
  unfold ips. rewrite map_map. apply map_ext. intros b. apply overlay_ip.
Qed.

Lemma freshOnes_ips (incoming : list peer) :
  forall (seen : list value) (v : value),
    v ∈ ips (freshOnes seen incoming) <-> v ∈ ips incoming /\ v ∉ seen.
Proof.
  induction incoming as [|n rest IH]; intros seen v.
  - simpl. rewrite elem_of_nil. tauto.
  - cbn [freshOnes]. case_bool_decide as Hn.
    + rewrite IH. cbn [ips map]. rewrite elem_of_cons.
      split; [tauto |]. intros [[->|H] Hs]; [done | tauto].
    + cbn [ips map]. rewrite !elem_of_cons.
      change (map (get "ip") (freshOnes (get "ip" n :: seen) rest))
        with (ips (freshOnes (get "ip" n :: seen) rest)).
      rewrite IH, not_elem_of_cons.
      change (map (get "ip") rest) with (ips rest).
      destruct (decide (v = get "ip" n)) as [->|Hv]; tauto.
Qed.

Lemma freshOnes_In (incoming : list peer) :
  forall (seen : list value) (n : peer),
    In n (freshOnes seen incoming) -> In n incoming.
Proof.
  induction incoming as [|x rest IH]; intros seen n; cbn [freshOnes]; [done |].
  case_bool_decide.
  - intros H'. right. by apply (IH seen).
  - intros [->|H']; [by left | right; by apply (IH (get "ip" x :: seen))].
Qed.

Lemma freshOnes_NoDup (incoming : list peer) :
  forall seen : list value, NoDup (ips (freshOnes seen incoming)).
Proof.
  induction incoming as [|n rest IH]; intros seen; cbn [freshOnes].
  - constructor.
  - case_bool_decide; [apply IH |].
    cbn [ips map]. constructor; [|apply IH].
    change (map (get "ip") (freshOnes (get "ip" n :: seen) rest))
      with (ips (freshOnes (get "ip" n :: seen) rest)).
    rewrite freshOnes_ips, not_elem_of_cons. tauto.
Qed.

Lemma freshOnes_length (incoming : list peer) :
  forall seen : list value,
    (length (freshOnes seen incoming) <= length incoming)%nat.
Proof.
  induction incoming as [|n rest IH]; intros seen; cbn [freshOnes]; [done |].
  case_bool_decide; simpl.
  - specialize (IH seen). lia.
  - specialize (IH (get "ip" n :: seen)). lia.
Qed.

Lemma freshOnes_all_seen (incoming : list peer) (seen : list value) :
  (forall v, v ∈ ips incoming -> v ∈ seen) -> freshOnes seen incoming = [].
Proof.
  induction incoming as [|n rest IH]; intros H; cbn [freshOnes]; [done |].
  rewrite bool_decide_true.
  - apply IH. intros v Hv. apply H. cbn [ips map]. by right.
  - apply H. cbn [ips map]. by left.
Qed.

Lemma freshOnes_all_new (incoming : list peer) :
  forall seen : list value,
    NoDup (ips incoming) ->
    (forall v, v ∈ ips incoming -> v ∉ seen) ->
    freshOnes seen incoming = incoming.
Proof.
  induction incoming as [|n rest IH]; intros seen Hnd H; cbn [freshOnes]; [done |].
  cbn [ips map] in Hnd. apply NoDup_cons in Hnd as [Hn Hnd].
  rewrite bool_decide_false.
  - f_equal. apply IH; [done |]. intros v Hv.
    rewrite not_elem_of_cons. split.
    + intros ->. by apply Hn.
    + apply H. cbn [ips map]. by right.
  - apply H. cbn [ips map]. by left.
Qed.

(** X1. The merge loses no peer and invents none: the [ip]s of the
    result are those of the two lists. *)
Theorem merge_ips (base incoming : list peer) (v : value) :
  v ∈ ips (mergePeerArrays base incoming)
  <-> v ∈ ips base \/ v ∈ ips incoming.
Proof.
  rewrite merge_refines. unfold merge_spec. cbv zeta.
  unfold ips at 1. rewrite map_app.
  change (map (get "ip") (map (overlay incoming) base))
    with (ips (map (overlay incoming) base)).
  change (map (get "ip")
            (freshOnes (ips (map (overlay incoming) base)) incoming))
    with (ips (freshOnes (ips (map (overlay incoming) base)) incoming)).
  rewrite elem_of_app, freshOnes_ips, ips_placed.
  destruct (decide (v ∈ ips base)); tauto.
Qed.

(** X2. Uniqueness by [ip] is kept: when no two records of [base] share
    an [ip], no two records of the merge do, whatever [incoming] holds. *)
Theorem merge_keeps_ips_distinct (base incoming : list peer) :
  NoDup (ips base) -> NoDup (ips (mergePeerArrays base incoming)).
Proof.
  intros Hb. rewrite merge_refines. unfold merge_spec. cbv zeta.
  unfold ips at 1. rewrite map_app.
  change (map (get "ip") (map (overlay incoming) base))
    with (ips (map (overlay incoming) base)).
  change (map (get "ip")
            (freshOnes (ips (map (overlay incoming) base)) incoming))
    with (ips (freshOnes (ips (map (overlay incoming) base)) incoming)).
  apply NoDup_app. split; [by rewrite ips_placed |].
  split; [|apply freshOnes_NoDup].
  intros v Hv Hf. apply freshOnes_ips in Hf as [_ Hf]. by apply Hf.
Qed.

Lemma merge_keeps_ips_distinct_witness :
  NoDup (ips [mkPeer [("ip", VStr "A")]])
  /\ NoDup (ips (mergePeerArrays [mkPeer [("ip", VStr "A")]]
                   [mkPeer [("ip", VStr "B")]; mkPeer [("ip", VStr "B"); ("port", VNum 1)]])).
Proof.
  assert (H : NoDup (ips [mkPeer [("ip", VStr "A")]])).
  { repeat constructor. intros H. by apply elem_of_nil in H. }
  split; [exact H |].
  exact (merge_keeps_ips_distinct [mkPeer [("ip", VStr "A")]]
           [mkPeer [("ip", VStr "B")]; mkPeer [("ip", VStr "B"); ("port", VNum 1)]] H).
Defined.

(** X3. The records of [base] keep their places and their [ip]s at the
    head of the merge, and the merge is at least as long as [base] and at
    most as long as the two lists together. *)
Theorem merge_base_prefix (base incoming : list peer) :
  ips (take (length base) (mergePeerArrays base incoming)) = ips base
  /\ (length base <= length (mergePeerArrays base incoming)
      <= length base + length incoming)%nat.
Proof.
  rewrite merge_refines. unfold merge_spec. cbv zeta. split.
  - rewrite take_app_length'; [apply ips_placed | by rewrite length_map].
  - rewrite length_app, length_map.
    pose proof (freshOnes_length incoming
                  (map (get "ip") (map (overlay incoming) base))) as Hlen.
    unfold ips. lia.
Qed.

Lemma firstSameIp_self (l : list peer) (b : peer) :
  NoDup (ips l) -> b ∈ l -> firstSameIp l b = Some b.
Proof.
  unfold firstSameIp. induction l as [|x l IH]; intros Hnd Hb.
  - by apply elem_of_nil in Hb.
  - cbn [ips map] in Hnd. apply NoDup_cons in Hnd as [Hx Hnd]. cbn [find].
    destruct (strictEq (get "ip" x) (get "ip" b)) eqn:E.
    + apply strictEq_true in E. apply elem_of_cons in Hb as [->|Hb]; [done |].
      exfalso. apply Hx. rewrite E. unfold ips.
      apply list_elem_of_In, in_map, list_elem_of_In, Hb.
    + apply elem_of_cons in Hb as [->|Hb]; [|by apply IH].
      unfold strictEq in E. by rewrite bool_decide_true in E.
Qed.

(** X4. Merging a list with itself changes nothing, provided no two of
    its records share an [ip]. *)
Theorem merge_self (l : list peer) :
  NoDup (ips l) -> mergePeerArrays l l = l.
Proof.
  intros Hnd. rewrite merge_refines. unfold merge_spec. cbv zeta.
  assert (Hmap : map (overlay l) l = l).
  { rewrite <- (map_id l) at 3. apply map_ext_in. intros b Hb.
    unfold overlay. rewrite firstSameIp_self; [|done | by apply list_elem_of_In].
    apply (idemp_L (∪)). }
  rewrite Hmap, freshOnes_all_seen; [by rewrite app_nil_r | done].
Qed.

Lemma merge_self_witness :
  NoDup (ips [mkPeer [("ip", VStr "A")]; mkPeer [("ip", VStr "B")]])
  /\ mergePeerArrays [mkPeer [("ip", VStr "A")]; mkPeer [("ip", VStr "B")]]
       [mkPeer [("ip", VStr "A")]; mkPeer [("ip", VStr "B")]]
     = [mkPeer [("ip", VStr "A")]; mkPeer [("ip", VStr "B")]].
Proof.
  assert (H : NoDup (ips [mkPeer [("ip", VStr "A")]; mkPeer [("ip", VStr "B")]])).
  { apply NoDup_cons. split.
    - intros H. apply list_elem_of_singleton in H. vm_compute in H. discriminate.
    - repeat constructor. intros H. by apply elem_of_nil in H. }
  split; [exact H |].
  exact (merge_self [mkPeer [("ip", VStr "A")]; mkPeer [("ip", VStr "B")]] H).
Defined.

(** X5. Merging two lists that share no [ip] is concatenation, provided
    no two records of [incoming] share an [ip]. *)
Theorem merge_disjoint (base incoming : list peer) :
  NoDup (ips incoming) ->
  (forall v, v ∈ ips incoming -> v ∉ ips base) ->
  mergePeerArrays base incoming = base ++ incoming.
Proof.
  intros Hnd Hdis. rewrite merge_refines. unfold merge_spec. cbv zeta.
  assert (Hmap : map (overlay incoming) base = base).
  { rewrite <- (map_id base) at 2. apply map_ext_in. intros b Hb.
    unfold overlay, firstSameIp.
    assert (Hnone : find (fun n : peer => strictEq (get "ip" n) (get "ip" b))
                      incoming = None).
    { apply find_ip_None. intros Hin. apply (Hdis _ Hin). unfold ips.
      by apply list_elem_of_In, in_map. }
    by rewrite Hnone. }
  rewrite Hmap. f_equal. by apply freshOnes_all_new.
Qed.

Lemma merge_disjoint_witness :
  NoDup (ips [mkPeer [("ip", VStr "B")]])
  /\ (forall v, v ∈ ips [mkPeer [("ip", VStr "B")]]
                -> v ∉ ips [mkPeer [("ip", VStr "A")]])
  /\ mergePeerArrays [mkPeer [("ip", VStr "A")]] [mkPeer [("ip", VStr "B")]]
     = [mkPeer [("ip", VStr "A")]] ++ [mkPeer [("ip", VStr "B")]].
Proof.
  assert (H1 : NoDup (ips [mkPeer [("ip", VStr "B")]])).
  { repeat constructor. intros H. by apply elem_of_nil in H. }
  assert (H2 : forall v, v ∈ ips [mkPeer [("ip", VStr "B")]]
                         -> v ∉ ips [mkPeer [("ip", VStr "A")]]).
  { intros v Hv Hv'. apply list_elem_of_singleton in Hv, Hv'.
    rewrite Hv in Hv'. vm_compute in Hv'. discriminate. }
  split; [exact H1 |]. split; [exact H2 |].
  exact (merge_disjoint [mkPeer [("ip", VStr "A")]] [mkPeer [("ip", VStr "B")]] H1 H2).
Defined.

End MergerLaws.

(** ** Further properties of the prober *)

Module ProberLaws.

Import Merger MergerLaws Prober.

(** The scratch client of [findPeers] once it is aimed at a candidate:
    the version is the one the constructor stored and the timeout is 5000
    milliseconds. *)
Definition scratchAt (version : value) (p : peer) : ApiClient :=
  mkClient (mkHttp (peerUrl p) (orElse (defaultTo1 version) (VNum 1)) (Some 5000))
           (orElse (defaultTo1 version) (VNum 1)).

Lemma findPeers_unfold
    (initialPeers : gmap string (list peer))
    (sortPeers shuffle : list peer -> list peer)
    (network : string) (version : value) (peersOverride : override)
    (cands : list peer) :
  candidates initialPeers network peersOverride = Some cands ->
  findPeers initialPeers sortPeers shuffle network version peersOverride
  = bind (probeLoop (defaultTo1 version)
            (mkClient (http_setTimeout
                         (newHttpClient "http://"
                            (orElse (defaultTo1 version) (VNum 1))) 5000)
                      (orElse (defaultTo1 version) (VNum 1)))
            cands 0 [])
         (fun peers =>
            Ret (cloneDeep (sortPeers
                   match peers with [] => cands | _ :: _ => peers end))).
Proof.
  intros Hc. unfold findPeers. rewrite constructor_ok, Hc.
  destruct peersOverride; simpl in Hc; try rewrite Hc; reflexivity.
Qed.

Lemma probeLoop_calls (w : env) (version : value) (cands : list peer) :
  forall (client : ApiClient) (checks : Z) (peers : list peer) (h : list entry),
    exists t,
      snd (run w h (probeLoop version client cands checks peers)) = h ++ t
      /\ Forall
           (fun e =>
              exists p reply,
                In p cands
                /\ e = PeersCall
                         (mkClient
                            (mkHttp (peerUrl p)
                               (http_version (client_http client))
                               (http_timeout (client_http client)))
                            (client_version client))
                         reply) t.
Proof.
  induction cands as [|p rest IH]; intros client checks peers h.
  - exists []. simpl. by rewrite app_nil_r.
  - cbn [probeLoop run]. cbv zeta.
    set (client' := mkClient (http_setHost (client_http client) (peerUrl p))
                             (client_version client)).
    set (reply := onPeers w h client').
    set (e := PeersCall client' reply).
    assert (He : exists p0 reply0,
               In p0 (p :: rest)
               /\ e = PeersCall
                        (mkClient
                           (mkHttp (peerUrl p0)
                              (http_version (client_http client))
                              (http_timeout (client_http client)))
                           (client_version client))
                        reply0).
    { exists p, reply. split; [by left | done]. }
    assert (Hnext : forall checks' peers',
      exists t,
        snd (run w (h ++ [e]) (probeLoop version client' rest checks' peers'))
        = h ++ t
        /\ Forall
             (fun e =>
                exists p0 reply0,
                  In p0 (p :: rest)
                  /\ e = PeersCall
                           (mkClient
                              (mkHttp (peerUrl p0)
                                 (http_version (client_http client))
                                 (http_timeout (client_http client)))
                              (client_version client))
                           reply0) t).
    { intros checks' peers'.
      destruct (IH client' checks' peers' (h ++ [e])) as (t & Hsnd & Hall).
      exists (e :: t). rewrite Hsnd, <- app_assoc. split; [done |].
      constructor; [exact He |].
      eapply Forall_impl; [exact Hall |].
      intros e0 (p0 & r0 & Hin & ->). exists p0, r0. split; [by right | done]. }
    destruct (responsePeers version reply) as [[|r rs]|]; try apply Hnext.
    destruct (_ >=? 2)%Z; [|apply Hnext].
    exists [e]. split; [done |]. by repeat constructor.
Qed.

(** X7. Every call [findPeers] makes asks a candidate of the list for its
    peers, through the scratch client aimed at the URL of that candidate
    with the timeout of 5000 milliseconds; no configuration request is
    made. *)
Theorem findPeers_calls
    (initialPeers : gmap string (list peer))
    (sortPeers shuffle : list peer -> list peer)
    (w : env) (h : list entry) (network : string) (version : value)
    (peersOverride : override) (cands : list peer) :
  candidates initialPeers network peersOverride = Some cands ->
  exists t,
    snd (run w h (findPeers initialPeers sortPeers shuffle network version
                    peersOverride)) = h ++ t
    /\ Forall (fun e => exists p reply,
                 In p cands /\ e = PeersCall (scratchAt version p) reply) t.
Proof.
  intros Hc. rewrite (findPeers_unfold _ _ _ _ _ _ _ Hc), run_bind.
  destruct (probeLoop_calls w (defaultTo1 version) cands
              (mkClient (http_setTimeout
                           (newHttpClient "http://"
                              (orElse (defaultTo1 version) (VNum 1))) 5000)
                        (orElse (defaultTo1 version) (VNum 1)))
              0 [] h) as (t & Hsnd & Hall).
  exists t. split; [|exact Hall].
  destruct (run w h (probeLoop _ _ cands 0 [])) as [[peers|e] h'];
    simpl in *; exact Hsnd.
Qed.

Lemma findPeers_calls_witness :
  candidates ∅ "devnet" (OvPeers [seedA; seedB]) = Some [seedA; seedB]
  /\ exists t,
       snd (run deadNetwork []
              (findPeers ∅ (fun l => l) (fun l => l) "devnet" VUndef
                 (OvPeers [seedA; seedB]))) = [] ++ t
       /\ Forall (fun e => exists p reply,
                    In p [seedA; seedB]
                    /\ e = PeersCall (scratchAt VUndef p) reply) t.
Proof.
  split; [reflexivity |].
  exact (findPeers_calls ∅ (fun l => l) (fun l => l) deadNetwork [] "devnet"
           VUndef (OvPeers [seedA; seedB]) [seedA; seedB] eq_refl).
Defined.

Lemma counts_unknown_version (version : value) (e : entry) :
  version <> VNum 1 -> version <> VNum 2 -> accepted version e = [].
Proof.
  intros H1 H2. destruct e as [c [|data]|]; [done | | done].
  unfold accepted, responsePeers.
  assert (E1 : strictEq version (VNum 1) = false).
  { unfold strictEq. by rewrite bool_decide_false. }
  assert (E2 : strictEq version (VNum 2) = false).
  { unfold strictEq. by rewrite bool_decide_false. }
  rewrite E1, E2. simpl. by destruct (body_peers data).
Qed.

(** X8. When the version probed for is neither the number 1 nor the
    number 2 (the number 3, [null], zero, the string ["1"]), no reply is
    read as a peer list, whatever the network answers: nothing is
    accumulated, and [findPeers] ends as the comparator ends on the
    candidate list itself. *)
Theorem findPeers_unknown_version
    (initialPeers : gmap string (list peer))
    (sortPeers : list peer -> result (list peer))
    (shuffle : list peer -> list peer)
    (w : env) (h : list entry) (network : string) (version : value)
    (peersOverride : override) (cands : list peer) :
  candidates initialPeers network peersOverride = Some cands ->
  defaultTo1 version <> VNum 1 ->
  defaultTo1 version <> VNum 2 ->
  fst (run w h (findPeersT initialPeers sortPeers shuffle network version
                  peersOverride))
  = match sortPeers cands with
    | Ok sorted => Ok (cloneDeep sorted)
    | Err e => Err e
    end.
Proof.
  intros Hc H1 H2.
  destruct (findPeersT_run initialPeers sortPeers shuffle w h network version
              peersOverride cands Hc) as (t & Hrun & _ & _).
  assert (Hk : Forall (fun e => kept (defaultTo1 version) e = []) t).
  { apply Forall_forall. intros e _. unfold kept.
    by rewrite counts_unknown_version. }
  assert (Hnil : accumulate (defaultTo1 version) t [] = [])
    by (by apply accumulate_nil).
  rewrite Hrun, Hnil. reflexivity.
Qed.

Lemma findPeers_unknown_version_witness :
  candidates ∅ "devnet" (OvPeers [seedA; seedB; seedC]) = Some [seedA; seedB; seedC]
  /\ defaultTo1 (VStr "1") <> VNum 1
  /\ defaultTo1 (VStr "1") <> VNum 2
  /\ fst (run loopbackNetwork []
            (findPeersT ∅ throwsOnEmpty (fun l => l) "devnet" (VStr "1")
               (OvPeers [seedA; seedB; seedC])))
     = match throwsOnEmpty [seedA; seedB; seedC] with
       | Ok sorted => Ok (cloneDeep sorted)
       | Err e => Err e
       end.
Proof.
  split; [reflexivity |]. split; [discriminate |]. split; [discriminate |].
  apply (findPeers_unknown_version ∅ throwsOnEmpty (fun l => l) loopbackNetwork
           [] "devnet" (VStr "1") (OvPeers [seedA; seedB; seedC])
           [seedA; seedB; seedC]).
  - reflexivity.
  - discriminate.
  - discriminate.
Defined.

Lemma get_union (k : string) (n b : peer) :
  get k (n ∪ b) = match n !! k with Some v => v | None => get k b end.
Proof.
  unfold get. rewrite lookup_union.
  destruct (n !! k), (b !! k); done.
Qed.

Lemma keepPeer_overlay (version : value) (n b : peer) :
  keepPeer version n = true -> keepPeer version b = true ->
  get "ip" n = get "ip" b ->
  keepPeer version (n ∪ b) = true.
Proof.
  intros Hn Hb Hip.
  apply keepPeer_spec in Hn as (Hn1 & Hn2 & Hn3).
  apply keepPeer_spec in Hb as (Hb1 & Hb2 & Hb3).
  apply keepPeer_spec. split; [|split].
  - rewrite get_union. destruct (n !! "ip") as [v|] eqn:E; [|done].
    unfold get in Hn1. by rewrite E in Hn1.
  - intros Hv. specialize (Hn2 Hv). rewrite get_union.
    unfold get in Hn2. destruct (n !! "status") as [v|] eqn:E; [done |].
    simpl in Hn2. destruct Hn2; discriminate.
  - destruct (n !! "version") as [v|] eqn:E.
    + assert (Hsame : getPeerVersion (n ∪ b) = getPeerVersion n).
      { unfold getPeerVersion. rewrite get_union, E. unfold get. by rewrite E. }
      by rewrite Hsame.
    + assert (Hsame : getPeerVersion (n ∪ b) = getPeerVersion b).
      { unfold getPeerVersion. by rewrite get_union, E. }
      by rewrite Hsame.
Qed.

Lemma merge_keeps_filter (version : value) (acc incoming : list peer) :
  Forall (fun p => keepPeer version p = true) acc ->
  Forall (fun p => keepPeer version p = true) incoming ->
  Forall (fun p => keepPeer version p = true) (mergePeerArrays acc incoming).
Proof.
  intros Ha Hi. rewrite merge_refines. unfold merge_spec. cbv zeta.
  apply Forall_app. split.
  - apply Forall_forall. intros q Hq.
    apply list_elem_of_In, in_map_iff in Hq as (b & <- & Hb).
    rewrite Forall_forall in Ha. specialize (Ha b (proj2 (list_elem_of_In _ _) Hb)).
    unfold overlay, firstSameIp.
    destruct (find _ incoming) as [n|] eqn:E; [|done].
    apply find_some in E as [Hn E]. apply strictEq_true in E.
    rewrite Forall_forall in Hi.
    apply keepPeer_overlay; [apply Hi; by apply list_elem_of_In | done | done].
  - apply Forall_forall. intros q Hq.
    apply list_elem_of_In, freshOnes_In in Hq.
    rewrite Forall_forall in Hi. apply Hi. by apply list_elem_of_In.
Qed.

Lemma accumulate_invariant (version : value) (t : list entry) :
  forall acc : list peer,
    Forall (fun p => keepPeer version p = true) acc ->
    NoDup (ips acc) ->
    Forall (fun p => keepPeer version p = true) (accumulate version t acc)
    /\ NoDup (ips (accumulate version t acc)).
Proof.
  induction t as [|e t IH]; intros acc Hk Hn; [done |].
  rewrite accumulate_cons. apply IH.
  - unfold absorb. destruct (counts version e); [|done].
    apply merge_keeps_filter; [done |].
    unfold kept. apply Forall_forall. intros p Hp.
    apply list_elem_of_In, filter_In in Hp. tauto.
  - unfold absorb. destruct (counts version e); [|done].
    by apply merge_keeps_ips_distinct.
Qed.

(** X9. What [findPeers] returns is either the sorted copy of the
    candidate list, when no call contributed a kept peer, or a
    rearrangement of the accumulated peers, every one of which passes the
    filter for the version probed for and no two of which share an [ip].
    The comparator module is taken to permute its argument. *)
Theorem findPeers_discovered_invariant
    (initialPeers : gmap string (list peer))
    (sortPeers shuffle : list peer -> list peer)
    (w : env) (h : list entry) (network : string) (version : value)
    (peersOverride : override) (cands : list peer) :
  (forall l, Permutation (sortPeers l) l) ->
  candidates initialPeers network peersOverride = Some cands ->
  exists t result,
    run w h (findPeers initialPeers sortPeers shuffle network version
               peersOverride) = (Ok result, h ++ t)
    /\ ((Forall (fun e => kept (defaultTo1 version) e = []) t
         /\ result = cloneDeep (sortPeers cands))
        \/ (Permutation result (accumulate (defaultTo1 version) t [])
            /\ Forall (fun p => keepPeer (defaultTo1 version) p = true) result
            /\ NoDup (ips result))).
Proof.
  intros Hsort Hc.
  destruct (findPeers_run initialPeers sortPeers shuffle w h network version
              peersOverride cands Hc) as (t & Hrun & _).
  eexists t, _. split; [exact Hrun |].
  destruct (accumulate_invariant (defaultTo1 version) t []) as [Hk Hn];
    [constructor | constructor |].
  pose proof (accumulate_nil (defaultTo1 version) t []) as Hnil.
  destruct (accumulate (defaultTo1 version) t []) as [|a acc] eqn:E.
  - left. split; [|done]. by apply Hnil.
  - right. unfold cloneDeep. pose proof (Hsort (a :: acc)) as HP.
    split; [done |]. split.
    + eapply Permutation_Forall; [symmetry; exact HP | exact Hk].
    + pose proof (Permutation_map (get "ip") HP) as HP'.
      unfold ips in *. by rewrite HP'.
Qed.

Lemma findPeers_discovered_invariant_witness :
  (forall l : list peer, Permutation ((fun l => l) l) l)
  /\ candidates ∅ "devnet" (OvPeers [seedA; seedB]) = Some [seedA; seedB]
  /\ exists t result,
       run loopbackNetwork []
         (findPeers ∅ (fun l => l) (fun l => l) "devnet" (VNum 1)
            (OvPeers [seedA; seedB])) = (Ok result, [] ++ t)
       /\ ((Forall (fun e => kept (defaultTo1 (VNum 1)) e = []) t
            /\ result = cloneDeep [seedA; seedB])
           \/ (Permutation result (accumulate (defaultTo1 (VNum 1)) t [])
               /\ Forall (fun p => keepPeer (defaultTo1 (VNum 1)) p = true) result
               /\ NoDup (ips result))).
Proof.
  split; [intros l; apply Permutation_refl |].
  split; [reflexivity |].
  exact (findPeers_discovered_invariant ∅ (fun l => l) (fun l => l)
           loopbackNetwork [] "devnet" (VNum 1) (OvPeers [seedA; seedB])
           [seedA; seedB] (fun l => Permutation_refl l) eq_refl).
Defined.

Lemma accumulate_counted (version : value) (t : list entry) :
  forall acc : list peer,
    accumulate version t acc
    = fold_left mergePeerArrays
        (map (kept version) (List.filter (counts version) t)) acc.
Proof.
  induction t as [|e t IH]; intros acc; [done |].
  rewrite accumulate_cons, IH. unfold absorb. cbn [List.filter].
  by destruct (counts version e).
Qed.

Lemma nchecks_app (version : value) (t1 t2 : list entry) :
  nchecks version (t1 ++ t2) = nchecks version t1 + nchecks version t2.
Proof.
  unfold nchecks. rewrite List.filter_app, length_app. lia.
Qed.

Lemma probe_trace_checks (version : value) (cands : list peer) (t : list entry) :
  probe_trace version cands 0 t -> nchecks version t <= 2.
Proof.
  intros [_ _ Hr _]. revert Hr.
  induction t as [|e0 t0 _] using rev_ind; intros Hr;
    [unfold nchecks; simpl; lia |].
  specialize (Hr t0 e0 [] eq_refl).
  rewrite nchecks_app, nchecks_cons.
  destruct (counts version e0); unfold nchecks at 2; simpl; lia.
Qed.

(** X10. The list [findPeers] sorts is built from at most two replies:
    the accumulated peers are the merge, in the order of the calls, of
    the kept peers of the counted replies, of which there are at most
    two. *)
Theorem findPeers_merges_at_most_two
    (initialPeers : gmap string (list peer))
    (sortPeers shuffle : list peer -> list peer)
    (w : env) (h : list entry) (network : string) (version : value)
    (peersOverride : override) (cands : list peer) :
  candidates initialPeers network peersOverride = Some cands ->
  exists t merged,
    run w h (findPeers initialPeers sortPeers shuffle network version
               peersOverride)
    = (Ok (cloneDeep (sortPeers
             match merged with [] => cands | _ :: _ => merged end)), h ++ t)
    /\ merged
       = fold_left mergePeerArrays
           (map (kept (defaultTo1 version))
                (List.filter (counts (defaultTo1 version)) t)) []
    /\ (length (List.filter (counts (defaultTo1 version)) t) <= 2)%nat.
Proof.
  intros Hc.
  destruct (findPeers_run initialPeers sortPeers shuffle w h network version
              peersOverride cands Hc) as (t & Hrun & Ht & _).
  exists t, (accumulate (defaultTo1 version) t []).
  split; [exact Hrun |]. split; [apply accumulate_counted |].
  apply probe_trace_checks in Ht. unfold nchecks in Ht. lia.
Qed.

Lemma findPeers_merges_at_most_two_witness :
  candidates ∅ "devnet" (OvPeers [seedA; seedB; seedC]) = Some [seedA; seedB; seedC]
  /\ exists t merged,
       run loopbackNetwork []
         (findPeers ∅ (fun l => l) (fun l => l) "devnet" (VNum 1)
            (OvPeers [seedA; seedB; seedC]))
       = (Ok (cloneDeep
                match merged with
                | [] => [seedA; seedB; seedC]
                | _ :: _ => merged
                end), [] ++ t)
       /\ merged
          = fold_left mergePeerArrays
              (map (kept (defaultTo1 (VNum 1)))
                   (List.filter (counts (defaultTo1 (VNum 1))) t)) []
       /\ (length (List.filter (counts (defaultTo1 (VNum 1))) t) <= 2)%nat.
Proof.
  split; [reflexivity |].
  exact (findPeers_merges_at_most_two ∅ (fun l => l) (fun l => l)
           loopbackNetwork [] "devnet" (VNum 1) (OvPeers [seedA; seedB; seedC])
           [seedA; seedB; seedC] eq_refl).
Defined.

End ProberLaws.

(** ** Further properties of the resolver *)

Module ResolverLaws.

Import Prober Resolver.

Lemma dropDigits_idem (s : string) : dropDigits (dropDigits s) = dropDigits s.
Proof.
  induction s as [|c r IH]; [done |]. cbn [dropDigits].
  destruct (isDigit c) eqn:E; [exact IH |]. cbn [dropDigits]. by rewrite E.
Qed.

Lemma startsWithDigit_replacePort (s : string) :
  startsWithDigit (replacePort s) = startsWithDigit s.
Proof.
  destruct s as [|c r]; [done |]. cbn [replacePort].
  destruct (bool_decide (c = ":"%char)) eqn:E; [|done].
  apply bool_decide_eq_true in E. subst c. cbn [andb].
  by destruct (startsWithDigit r).
Qed.

(** X11. Rewriting the port is idempotent: the host of the second and
    third attempt is its own rewritten host. *)
Theorem replacePort_idempotent (host : string) :
  replacePort (replacePort host) = replacePort host.
Proof.
  induction host as [|c r IH]; [done |]. cbn [replacePort].
  destruct (bool_decide (c = ":"%char) && startsWithDigit r) eqn:E.
  - change (":4040" +:+ dropDigits r)
      with (String ":"%char
              (String "4"%char (String "0"%char (String "4"%char
                 (String "0"%char (dropDigits r)))))).
    cbn [replacePort startsWithDigit].
    change (isDigit "4"%char) with true.
    rewrite bool_decide_true by done. cbn [andb dropDigits].
    change (isDigit "4"%char) with true. change (isDigit "0"%char) with true.
    cbv iota. by rewrite dropDigits_idem.
  - cbn [replacePort]. by rewrite startsWithDigit_replacePort, E, IH.
Qed.

Lemma replacePort_no_port (host : string) :
  colonDigit host = false -> replacePort host = host.
Proof.
  induction host as [|c r IH]; [done |]. cbn [colonDigit replacePort].
  intros H. apply orb_false_iff in H as [H1 H2]. by rewrite H1, IH.
Qed.

(** X12. For a host in which no colon stands before a digit, so a host
    without port, nothing is rewritten: the three attempts of
    [fetchPeerConfig] all go to the host itself, the second repeating the
    first. *)
Theorem attempts_without_port (host : string) :
  colonDigit host = false ->
  attempts host = [ (host, Some "/config"); (host, Some "/config"); (host, None) ].
Proof.
  intros H. unfold attempts. by rewrite replacePort_no_port.
Qed.

Lemma attempts_without_port_witness :
  colonDigit "http://example.org" = false
  /\ attempts "http://example.org"
     = [ ("http://example.org", Some "/config");
         ("http://example.org", Some "/config");
         ("http://example.org", None) ].
Proof.
  split; [reflexivity |].
  exact (attempts_without_port "http://example.org" eq_refl).
Defined.

(** One of the three requests of [fetchPeerConfig] for the host built
    for the peer [p]: a [get] through a fresh version-2 transport, on that
    host at [/config], or on its rewritten host at [/config] or without
    endpoint. *)
Definition configCallFor (p : peer) (e : entry) : Prop :=
  exists reply,
    e = GetCall (newHttpClient (httpUrl p) (VNum 2)) "get" (Some "/config") reply
    \/ e = GetCall (newHttpClient (replacePort (httpUrl p)) (VNum 2)) "get"
             (Some "/config") reply
    \/ e = GetCall (newHttpClient (replacePort (httpUrl p)) (VNum 2)) "get"
             None reply.

Lemma fetchPeerConfig_calls (w : env) (h : list entry) (p : peer) :
  exists t r,
    run w h (fetchPeerConfig (httpUrl p)) = (Ok r, h ++ t)
    /\ (length t <= 3)%nat
    /\ Forall (configCallFor p) t.
Proof.
  destruct (tryAttempts_run w (attempts (httpUrl p)) h)
    as (t & r & Hrun & Hreq & _ & _).
  exists t, r. split; [exact Hrun |]. split.
  - apply (f_equal length) in Hreq.
    rewrite length_map, length_take in Hreq. simpl in Hreq. lia.
  - apply Forall_forall. intros e He.
    assert (Hin : getRequest e ∈ map getRequest t).
    { by apply list_elem_of_In, in_map, list_elem_of_In. }
    rewrite Hreq in Hin. apply subseteq_take in Hin.
    destruct e as [c reply|c m ep reply].
    + simpl in Hin. rewrite !elem_of_cons, elem_of_nil in Hin.
      destruct Hin as [Hin|[Hin|[Hin|[]]]]; discriminate.
    + exists reply. simpl in Hin.
      rewrite !elem_of_cons, elem_of_nil in Hin.
      destruct Hin as [Hin|[Hin|[Hin|[]]]];
        injection Hin as -> -> ->; auto.
Qed.

(** X13. [selectApiPeer] makes at most three calls for each peer of the
    list, and each call is one of the three requests of [fetchPeerConfig]
    for a peer of the list: a [get] through a version-2 transport on the
    host [http://ip:port] at [/config], or on that host as the port
    expression rewrites it, at [/config] or without endpoint. *)
Theorem selectApiPeer_calls (w : env) (peers : list peer) (h : list entry) :
  exists t,
    snd (run w h (selectApiPeer peers)) = h ++ t
    /\ (length t <= 3 * length peers)%nat
    /\ Forall (fun e => exists p, In p peers /\ configCallFor p e) t.
Proof.
  revert h. induction peers as [|p rest IH]; intros h.
  - exists []. simpl. by rewrite app_nil_r.
  - destruct (fetchPeerConfig_calls w h p) as (t1 & cfg & Hf & Hlen & Hall).
    assert (Hhere : Forall (fun e => exists p0, In p0 (p :: rest)
                                                /\ configCallFor p0 e) t1).
    { eapply Forall_impl; [exact Hall |]. intros e He. exists p.
      split; [by left | done]. }
    rewrite (selectApiPeer_cons w h p rest cfg (h ++ t1) Hf).
    destruct (coreApi cfg) as [plugin|].
    + exists t1. simpl. split; [done |]. split; [lia | done].
    + destruct (IH (h ++ t1)) as (t2 & Hsnd & Hlen2 & Hall2).
      exists (t1 ++ t2). rewrite Hsnd, app_assoc. split; [done |].
      split; [rewrite length_app; simpl; lia |].
      apply Forall_app. split; [done |].
      eapply Forall_impl; [exact Hall2 |]. intros e (p0 & Hin & He).
      exists p0. split; [by right | done].
Qed.

End ResolverLaws.

(** ** Further properties of the facade *)

Module FacadeLaws.

Import Prober Resolver Facade ProberLaws.

(** [getConnection ()]. *)
Definition getConnection (this : ApiClient) : HttpClient := client_http this.

(** A call of one of the two setters, and a sequence of such calls on a
    client, which ends at the first call that throws. *)
Inductive setterCall : Type :=
  | CallSetVersion (version : value)
  | CallSetConnection (host : string).

Fixpoint applyCalls (this : ApiClient) (l : list setterCall) : result ApiClient :=
  match l with
  | [] => Ok this
  | CallSetVersion version :: l' =>
      match setVersion this version with
      | Ok this' => applyCalls this' l'
      | Err e => Err e
      end
  | CallSetConnection host :: l' => applyCalls (setConnection this host) l'
  end.

(** The host the last [setConnection] of a sequence gave, or [host] when
    there is none. *)
Definition lastHost (host : string) (l : list setterCall) : string :=
  fold_left (fun hst c => match c with
                          | CallSetConnection host' => host'
                          | CallSetVersion _ => hst
                          end) l host.

Lemma applyCalls_invariant (l : list setterCall) :
  forall (this this' : ApiClient),
    truthy (client_version this) = true ->
    http_version (client_http this) = client_version this ->
    applyCalls this l = Ok this' ->
    truthy (client_version this') = true
    /\ http_version (getConnection this') = client_version this'
    /\ http_host (getConnection this') = lastHost (http_host (client_http this)) l.
Proof.
  induction l as [|[version|host] l IH]; intros this this' Ht Hv Hrun.
  - injection Hrun as <-. done.
  - cbn [applyCalls] in Hrun. unfold setVersion in Hrun.
    destruct (truthy version) eqn:E; [|discriminate]. cbn [negb] in Hrun.
    cbv iota in Hrun. by apply IH in Hrun.
  - cbn [applyCalls] in Hrun. by apply IH in Hrun.
Qed.

(** X14. A client built by the constructor keeps, through every sequence
    of [setVersion] and [setConnection] calls that does not throw, a
    truthy version that is also the version of its transport; and the
    host of the transport is the one given last, to [setConnection] or
    else to the constructor. *)
Theorem client_version_invariant (host : string) (version : value)
    (l : list setterCall) (this this' : ApiClient) :
  constructor host version = Ok this ->
  applyCalls this l = Ok this' ->
  truthy (client_version this') = true
  /\ http_version (getConnection this') = client_version this'
  /\ http_host (getConnection this') = lastHost host l.
Proof.
  rewrite constructor_ok. intros [= <-] Hrun.
  apply applyCalls_invariant in Hrun; [done | | done].
  unfold orElse. simpl. by destruct (truthy version) eqn:E.
Qed.

Lemma client_version_invariant_witness :
  constructor "http://10.0.0.1:4001" VUndef
  = Ok (handle "http://10.0.0.1:4001" (VNum 1))
  /\ applyCalls (handle "http://10.0.0.1:4001" (VNum 1))
       [CallSetVersion (VNum 2); CallSetConnection "http://10.0.0.2:4003"]
     = Ok (handle "http://10.0.0.2:4003" (VNum 2))
  /\ truthy (client_version (handle "http://10.0.0.2:4003" (VNum 2))) = true
  /\ http_version (getConnection (handle "http://10.0.0.2:4003" (VNum 2)))
     = client_version (handle "http://10.0.0.2:4003" (VNum 2))
  /\ http_host (getConnection (handle "http://10.0.0.2:4003" (VNum 2)))
     = lastHost "http://10.0.0.1:4001"
         [CallSetVersion (VNum 2); CallSetConnection "http://10.0.0.2:4003"].
Proof.
  split; [reflexivity |]. split; [reflexivity |].
  exact (client_version_invariant "http://10.0.0.1:4001" VUndef
           [CallSetVersion (VNum 2); CallSetConnection "http://10.0.0.2:4003"]
           (handle "http://10.0.0.1:4001" (VNum 1))
           (handle "http://10.0.0.2:4003" (VNum 2)) eq_refl eq_refl).
Defined.

(** X15. With the empty array as override and a comparator that throws
    on the empty list, [connect] ends with the exception of the
    comparator, for every version and before any call: neither the read
    of [peers[0].ip] nor the choice of an API peer is reached. *)
Theorem connect_empty_override
    (initialPeers : gmap string (list peer))
    (sortPeers : list peer -> result (list peer))
    (shuffle : list peer -> list peer)
    (w : env) (h : list entry) (network : string) (version : value)
    (e : error) :
  sortPeers [] = Err e ->
  run w h (connectT initialPeers sortPeers shuffle network version (OvPeers []))
  = (Err e, h).
Proof.
  intros He. unfold connectT. rewrite run_bind.
  destruct (findPeersT_run initialPeers sortPeers shuffle w h network version
              (OvPeers []) [] eq_refl) as (t & Hrun & [_ Hb _ _] & _).
  assert (t = []) as -> by (destruct t; [done | simpl in Hb; lia]).
  rewrite Hrun. simpl. rewrite He. by rewrite app_nil_r.
Qed.

Lemma connect_empty_override_witness :
  throwsOnEmpty [] = Err TypeError
  /\ run deadNetwork []
       (connectT ∅ throwsOnEmpty (fun l => l) "devnet" (VNum 2) (OvPeers []))
     = (Err TypeError, []).
Proof.
  split; [reflexivity |].
  exact (connect_empty_override ∅ throwsOnEmpty (fun l => l) deadNetwork []
           "devnet" (VNum 2) TypeError eq_refl).
Defined.

(** X16. When [connect] is called without version, discovery runs as for
    version 1 but the peer is chosen by [selectApiPeer], as for version
    2; the handle returned carries version 1, and the call fails with
    the no-API-peer error when no peer is selected. *)
Theorem connect_without_version
    (initialPeers : gmap string (list peer))
    (sortPeers shuffle : list peer -> list peer)
    (w : env) (h h1 h2 : list entry) (network : string)
    (peersOverride : override) (peers : list peer) (r : option peer) :
  run w h (findPeers initialPeers sortPeers shuffle network (VNum 1)
             peersOverride) = (Ok peers, h1) ->
  run w h1 (selectApiPeer peers) = (Ok r, h2) ->
  run w h (connect initialPeers sortPeers shuffle network VUndef peersOverride)
  = (match r with
     | Some q => Ok (handle (httpUrl q) (VNum 1))
     | None => Err NoApiPeerFoundError
     end, h2).
Proof.
  intros Hf Hs. unfold connect.
  change (findPeers initialPeers sortPeers shuffle network VUndef peersOverride)
    with (findPeers initialPeers sortPeers shuffle network (VNum 1) peersOverride).
  rewrite run_bind, Hf.
  change (strictEq VUndef (VNum 1)) with false. cbv iota.
  rewrite !run_bind, Hs. by destruct r.
Qed.

(** Discovery and selection on a network where no peer list is served
    and the second seed serves its configuration. *)
Definition sampleDiscovery : result (list peer) * list entry :=
  run (configAt "http://10.0.0.2:4001") []
    (findPeers ∅ (fun l => l) (fun l => l) "devnet" (VNum 1)
       (OvPeers [seedA; seedB])).

Definition sampleSelection : result (option peer) * list entry :=
  run (configAt "http://10.0.0.2:4001") (snd sampleDiscovery)
    (selectApiPeer [seedA; seedB]).

Lemma connect_without_version_witness :
  sampleDiscovery = (Ok [seedA; seedB], snd sampleDiscovery)
  /\ sampleSelection
     = (Ok (Some (mkPeer [("ip", VStr "10.0.0.2"); ("port", VNum 4003)])),
        snd sampleSelection)
  /\ run (configAt "http://10.0.0.2:4001") []
       (connect ∅ (fun l => l) (fun l => l) "devnet" VUndef (OvPeers [seedA; seedB]))
     = (Ok (handle (httpUrl (mkPeer [("ip", VStr "10.0.0.2"); ("port", VNum 4003)]))
              (VNum 1)),
        snd sampleSelection).
Proof.
  assert (H1 : sampleDiscovery = (Ok [seedA; seedB], snd sampleDiscovery))
    by (vm_compute; reflexivity).
  assert (H2 : sampleSelection
               = (Ok (Some (mkPeer [("ip", VStr "10.0.0.2"); ("port", VNum 4003)])),
                  snd sampleSelection))
    by (vm_compute; reflexivity).
  split; [exact H1 |]. split; [exact H2 |].
  exact (connect_without_version ∅ (fun l => l) (fun l => l)
           (configAt "http://10.0.0.2:4001") [] (snd sampleDiscovery)
           (snd sampleSelection) "devnet" (OvPeers [seedA; seedB])
           [seedA; seedB]
           (Some (mkPeer [("ip", VStr "10.0.0.2"); ("port", VNum 4003)]))
           H1 H2).
Defined.

End FacadeLaws.
